(** * finetune: ordinal-regression head, chunk aggregation and the
      HuggingFace adapter

    A shallow embedding of
    - [finetune/target_models/ordinal_regressor.py]
      ([OrdinalRegressor], [ComparisonOrdinalRegressor]) and
    - [finetune/util/huggingface_interface.py]
      ([load_weights_from_hdf5_group_by_name], [finetune_featurizer],
      [HuggingFaceEncoder]),
    together with the properties the specification states about them. *)

From Stdlib Require Import ZArith List Bool Lia Ascii.
From stdpp Require Import base list gmap strings.
Import ListNotations.

Set Warnings "-register-all,-clear-no-such-hyp".

(** ** Python values, exceptions and results *)

(** The exceptions the modelled code can raise. *)
Inductive exception : Type :=
| UnboundLocalError (var : string)
| AttributeError (msg : string)
| KeyError (key : string)
| IndexError (msg : string)
| ValueError (msg : string).

(** A call either returns a value or raises. *)
Inductive result (A : Type) : Type :=
| Ok (a : A)
| Raise (e : exception).
Arguments Ok {A} a.
Arguments Raise {A} e.

#[global] Instance result_ret : MRet result := fun A a => Ok a.
#[global] Instance result_bind : MBind result := fun A B k r =>
  match r with
  | Ok a => k a
  | Raise e => Raise e
  end.

Definition returns {A : Type} (r : result A) : Prop := exists a, r = Ok a.
Definition raises {A : Type} (r : result A) : Prop := exists e, r = Raise e.

(** A NumPy array: a zero-dimensional item or a leading axis of sub-arrays. *)
Inductive ndarray (A : Type) : Type :=
| Item (x : A)
| Axis (rows : list (ndarray A)).
Arguments Item {A} x.
Arguments Axis {A} rows.

(** A plain Python object as [ndarray.tolist] builds it. *)
Inductive py_obj (A : Type) : Type :=
| PyScalar (x : A)
| PyList (items : list (py_obj A)).
Arguments PyScalar {A} x.
Arguments PyList {A} items.

(** [ndarray.tolist]: a zero-dimensional array gives the bare scalar, any
    other array a (nested) list. *)
Fixpoint tolist {A : Type} (a : ndarray A) : py_obj A :=
  match a with
  | Item x => PyScalar x
  | Axis rows => PyList (List.map tolist rows)
  end.

(** [np.asarray] of a Python list of numbers: a one-dimensional array. *)
Definition np_asarray {A : Type} (l : list A) : ndarray A :=
  Axis (List.map Item l).

Definition is_py_list {A : Type} (o : py_obj A) : bool :=
  match o with
  | PyList _ => true
  | PyScalar _ => false
  end.

(** ** Arg-max and statistical mode *)

(** [argmax]: index of the maximum, the first one when it occurs more than
    once (NumPy and TensorFlow agree on this). *)
Fixpoint argmax (l : list Z) : nat :=
  match l with
  | [] => 0
  | x :: r => if (x <? nth (argmax r) r x)%Z then S (argmax r) else 0
  end.

(** [np.unique]: the sorted distinct values. *)
Fixpoint insert_unique (x : Z) (l : list Z) : list Z :=
  match l with
  | [] => [x]
  | y :: r =>
      if (x <? y)%Z then x :: y :: r
      else if (x =? y)%Z then y :: r
      else y :: insert_unique x r
  end.

Definition np_unique (a : list Z) : list Z :=
  fold_right insert_unique [] a.

Definition occurrences (a : list Z) (v : Z) : Z :=
  Z.of_nat (count_occ Z.eq_dec a v).

(** [scipy.stats.mode(a).mode] on a one-dimensional array of integers: the
    unique values are counted and the first arg-max of the counts selected,
    so that among the most frequent values the smallest is returned.  (On an
    empty array SciPy yields NaN; [predict] always appends before it
    reduces, so the default below is never reached from it.) *)
Definition scipy_mode (a : list Z) : Z :=
  let vals := np_unique a in
  let cnts := List.map (occurrences a) vals in
  nth (argmax cnts) vals 0%Z.

(** *** Properties of [argmax] *)

Lemma argmax_lt_length (l : list Z) : l <> [] -> argmax l < length l.
Proof.
  induction l as [|x r IH]; intros Hne; [done|]. simpl.
  destruct (x <? nth (argmax r) r x)%Z eqn:Hlt; [|lia].
  destruct r as [|y r]; [simpl in Hlt; lia|].
  specialize (IH ltac:(done)). simpl in *. lia.
Qed.

Lemma argmax_max (l : list Z) (j : nat) (d : Z) :
  j < length l -> (nth j l d <= nth (argmax l) l d)%Z.
Proof.
  revert j. induction l as [|x r IH]; intros j Hj; simpl in Hj; [lia|].
  assert (Hr : r <> [] -> nth (argmax r) r x = nth (argmax r) r d).
  { intros Hne. apply nth_indep. by apply argmax_lt_length. }
  simpl. destruct (x <? nth (argmax r) r x)%Z eqn:Hlt.
  - destruct r as [|y r]; [simpl in Hlt; lia|].
    rewrite Hr in Hlt by done.
    destruct j as [|j]; [lia|]. apply IH. simpl in *. lia.
  - destruct j as [|j]; [lia|].
    destruct r as [|y r]; [simpl in Hj; lia|].
    rewrite Hr in Hlt by done.
    specialize (IH j ltac:(simpl in *; lia)). lia.
Qed.

Lemma argmax_first (l : list Z) (j : nat) (d : Z) :
  j < argmax l -> (nth j l d < nth (argmax l) l d)%Z.
Proof.
  revert j. induction l as [|x r IH]; intros j Hj; simpl in Hj; [lia|].
  simpl. destruct (x <? nth (argmax r) r x)%Z eqn:Hlt; [|lia].
  destruct r as [|y r]; [simpl in Hlt; lia|].
  rewrite (nth_indep _ x d) in Hlt
    by (apply argmax_lt_length; done).
  destruct j as [|j]; [lia|]. apply IH. lia.
Qed.

(** A strict maximum is where [argmax] lands. *)
Lemma argmax_unique (l : list Z) (j : nat) (d : Z) :
  j < length l ->
  (forall i, i < length l -> i <> j -> (nth i l d < nth j l d)%Z) ->
  argmax l = j.
Proof.
  intros Hj Hmax.
  assert (Hne : l <> []) by (destruct l; simpl in *; [lia|done]).
  pose proof (argmax_lt_length l Hne) as Ha.
  pose proof (argmax_max l j d Hj) as Hm.
  destruct (decide (argmax l = j)) as [|Hneq]; [done|].
  specialize (Hmax _ Ha Hneq). lia.
Qed.

(** *** Properties of [np_unique] and [scipy_mode] *)

Lemma insert_unique_In (x y : Z) (l : list Z) :
  In y (insert_unique x l) <-> y = x \/ In y l.
Proof.
  induction l as [|z r IH]; simpl; [intuition|].
  destruct (x <? z)%Z eqn:H1; [simpl; intuition|].
  destruct (x =? z)%Z eqn:H2; simpl.
  - apply Z.eqb_eq in H2. subst. intuition.
  - rewrite IH. intuition.
Qed.

Lemma np_unique_In (a : list Z) (y : Z) : In y (np_unique a) <-> In y a.
Proof.
  induction a as [|x a IH]; simpl; [done|].
  rewrite insert_unique_In, IH. intuition.
Qed.

(** Strictly ascending lists. *)
Inductive ascending : list Z -> Prop :=
| ascending_nil : ascending []
| ascending_cons x l :
    ascending l -> (forall y, In y l -> (x < y)%Z) -> ascending (x :: l).

Lemma insert_unique_ascending (x : Z) (l : list Z) :
  ascending l -> ascending (insert_unique x l).
Proof.
  induction 1 as [|z r Hr IH Hz]; simpl.
  - constructor; [constructor|]. intros y [].
  - destruct (x <? z)%Z eqn:H1.
    + constructor; [by constructor|].
      intros y [<-|Hy]; [lia|]. specialize (Hz y Hy). lia.
    + destruct (x =? z)%Z eqn:H2; [by constructor|].
      constructor; [done|].
      intros y Hy. apply insert_unique_In in Hy as [->|Hy]; [lia|by apply Hz].
Qed.

Lemma np_unique_ascending (a : list Z) : ascending (np_unique a).
Proof.
  induction a as [|x a IH]; simpl; [constructor|].
  by apply insert_unique_ascending.
Qed.

Lemma ascending_nth (l : list Z) (i j : nat) (d : Z) :
  ascending l -> i < j -> j < length l -> (nth i l d < nth j l d)%Z.
Proof.
  intros Hl. revert i j. induction Hl as [|x l Hl IH Hx]; intros i j Hij Hj.
  - simpl in Hj. lia.
  - destruct j as [|j]; [lia|]. simpl in Hj.
    destruct i as [|i]; simpl.
    + apply Hx, nth_In. lia.
    + apply IH; lia.
Qed.

Lemma occurrences_nonneg (a : list Z) (v : Z) : (0 <= occurrences a v)%Z.
Proof. unfold occurrences. lia. Qed.

Lemma occurrences_not_In (a : list Z) (v : Z) :
  ~ In v a -> occurrences a v = 0%Z.
Proof.
  intros H. unfold occurrences.
  apply (count_occ_not_In Z.eq_dec) in H. by rewrite H.
Qed.

(** Majority vote with a deterministic tie-break: the value [scipy_mode]
    returns occurs in the array, no value occurs more often, and among the
    values that occur as often it is the smallest. *)
Lemma scipy_mode_majority (a : list Z) :
  a <> [] ->
  In (scipy_mode a) a /\
  (forall x, (occurrences a x <= occurrences a (scipy_mode a))%Z) /\
  (forall x, In x a -> occurrences a x = occurrences a (scipy_mode a) ->
             (scipy_mode a <= x)%Z).
Proof.
  intros Hne. unfold scipy_mode.
  set (vals := np_unique a). set (cnts := List.map (occurrences a) vals).
  assert (Hvne : vals <> []).
  { destruct a as [|x a]; [done|]. intros Hv.
    assert (In x vals) as Hin by (apply np_unique_In; by left).
    rewrite Hv in Hin. destruct Hin. }
  assert (Hlen : length cnts = length vals) by apply length_map.
  assert (Hcne : cnts <> []).
  { intros Hc. rewrite Hc in Hlen. destruct vals; simpl in *; [done|lia]. }
  pose proof (argmax_lt_length cnts Hcne) as Hk.
  set (k := argmax cnts) in *.
  assert (Hcnt : forall j, nth j cnts (occurrences a 0) = occurrences a (nth j vals 0%Z)).
  { intros j. unfold cnts. apply map_nth. }
  assert (Hle : forall x, In x a ->
            (occurrences a x <= occurrences a (nth k vals 0))%Z /\
            (occurrences a x = occurrences a (nth k vals 0) -> nth k vals 0 <= x)%Z).
  { intros x Hx. apply np_unique_In in Hx.
    apply (In_nth _ _ 0%Z) in Hx as (j & Hj & <-). fold vals in Hj |- *.
    rewrite <- !Hcnt. split.
    - apply argmax_max. lia.
    - intros Heq. destruct (decide (j < k)) as [Hjk|Hjk].
      + pose proof (argmax_first cnts j (occurrences a 0) Hjk). fold k in H. lia.
      + destruct (decide (j = k)) as [->|Hneq]; [lia|].
        pose proof (ascending_nth vals k j 0%Z (np_unique_ascending a)
                      ltac:(lia) Hj). lia. }
  split; [|split].
  - apply np_unique_In. apply nth_In. fold vals. lia.
  - intros x. destruct (in_dec Z.eq_dec x a) as [Hx|Hx].
    + by apply Hle.
    + rewrite (occurrences_not_In a x Hx). apply occurrences_nonneg.
  - intros x Hx. by apply Hle.
Qed.

(** The mode of a single label is that label. *)
Lemma scipy_mode_singleton (x : Z) : scipy_mode [x] = x.
Proof.
  unfold scipy_mode. simpl.
  destruct (_ <? _)%Z eqn:H; [lia|done].
Qed.

(** Two strictly ascending lists with the same elements are equal. *)
Lemma ascending_ext (l1 l2 : list Z) :
  ascending l1 -> ascending l2 ->
  (forall x, In x l1 <-> In x l2) -> l1 = l2.
Proof.
  intros H1. revert l2. induction H1 as [|x l1 Hl1 IH Hx]; intros l2 H2 Hin.
  - destruct l2 as [|y l2]; [done|]. destruct (proj2 (Hin y) ltac:(by left)).
  - destruct H2 as [|y l2 Hl2 Hy].
    + destruct (proj1 (Hin x) ltac:(by left)).
    + assert (x = y) as <-.
      { destruct (proj1 (Hin x) ltac:(by left)) as [Hxy|Hxy]; [done|].
        destruct (proj2 (Hin y) ltac:(by left)) as [Hyx|Hyx]; [done|].
        specialize (Hx _ Hyx). specialize (Hy _ Hxy). lia. }
      f_equal. apply IH; [done|]. intros z. split; intros Hz.
      * destruct (proj1 (Hin z) ltac:(by right)) as [<-|Hz']; [|done].
        specialize (Hx _ Hz). lia.
      * destruct (proj2 (Hin z) ltac:(by right)) as [<-|Hz']; [|done].
        specialize (Hy _ Hz). lia.
Qed.

Lemma scipy_mode_permutation (a b : list Z) :
  Permutation a b -> scipy_mode a = scipy_mode b.
Proof.
  intros Hp. unfold scipy_mode.
  assert (Hu : np_unique a = np_unique b).
  { apply ascending_ext; try apply np_unique_ascending.
    intros x. rewrite !np_unique_In.
    split; apply Permutation_in; [done|by symmetry]. }
  rewrite Hu. f_equal. f_equal. apply List.map_ext. intros v.
  unfold occurrences. f_equal.
  by apply (proj1 (Permutation_count_occ Z.eq_dec a b)).
Qed.

Lemma count_occ_two (a : list Z) (x y : Z) :
  x <> y -> count_occ Z.eq_dec a x + count_occ Z.eq_dec a y <= length a.
Proof.
  intros Hxy. induction a as [|z a IH]; simpl; [lia|].
  destruct (Z.eq_dec z x), (Z.eq_dec z y); subst; try done; lia.
Qed.

Lemma scipy_mode_strict_majority (a : list Z) (x : Z) :
  (Z.of_nat (length a) < 2 * occurrences a x)%Z -> scipy_mode a = x.
Proof.
  intros Hmaj.
  assert (Hne : a <> []).
  { intros ->. unfold occurrences in Hmaj. simpl in Hmaj. lia. }
  destruct (scipy_mode_majority a Hne) as (_ & Hmax & _).
  specialize (Hmax x).
  destruct (decide (scipy_mode a = x)) as [|Hneq]; [done|].
  pose proof (count_occ_two a x (scipy_mode a) ltac:(done)) as Hsum.
  unfold occurrences in *. lia.
Qed.

(** ** [OrdinalRegressor]: the long-sequence prediction aggregator *)

Module OrdinalRegressor.

Section Predict.
(** The first and last components of the tuples [process_long_sequence]
    yields are ignored by [predict]; the decoded label type belongs to the
    label encoder. *)
Context {Input Meta Decoded : Type}.

(** [self.input_pipeline.label_encoder.inverse_transform], the label
    encoder's inverse decode (defined outside this module). *)
Variable inverse_transform : ndarray Z -> ndarray Decoded.

(** One tuple [(_, start_of_doc, end_of_doc, label, _)] of the stream. *)
Record chunk : Type := Chunk {
  chunk_input : Input;
  start_of_doc : bool;
  end_of_doc : bool;
  label : Z;
  chunk_meta : Meta
}.

(** What the local name [doc_labels] is bound to: nothing before the
    first assignment, a Python list while a document is accumulated, and
    the NumPy array of line 67 after a document has been reduced. *)
Inductive doc_labels_binding : Type :=
| Unbound
| PyListOf (l : list Z)
| NdArrayOf (a : list Z).

Record locals : Type := Locals {
  all_labels : list (py_obj Decoded);
  doc_labels : doc_labels_binding
}.

(** [doc_labels.append(label)] *)
Definition append (b : doc_labels_binding) (x : Z) : result (list Z) :=
  match b with
  | Unbound =>
      Raise (UnboundLocalError "doc_labels")
  | NdArrayOf _ =>
      Raise (AttributeError "'numpy.ndarray' object has no attribute 'append'")
  | PyListOf l => Ok (l ++ [x])
  end.

(** The label emitted for a document with per-chunk labels [d]
    (lines 67-70). *)
Definition emit (d : list Z) : py_obj Decoded :=
  let doc_mode := scipy_mode d in
  tolist (inverse_transform (np_asarray [doc_mode])).

(** One iteration of the [for] loop. *)
Definition loop_body (st : locals) (c : chunk) : result locals :=
  let b := if start_of_doc c then PyListOf [] else doc_labels st in
  l ← append b (label c);
  if end_of_doc c
  then Ok {| all_labels := all_labels st ++ [emit l];
             doc_labels := NdArrayOf l |}
  else Ok {| all_labels := all_labels st; doc_labels := PyListOf l |}.

Fixpoint loop (st : locals) (stream : list chunk) : result locals :=
  match stream with
  | [] => Ok st
  | c :: rest => st' ← loop_body st c; loop st' rest
  end.

Definition predict (stream : list chunk) : result (list (py_obj Decoded)) :=
  st ← loop {| all_labels := []; doc_labels := Unbound |} stream;
  Ok (all_labels st).

(** *** The boundary invariant of a chunk stream

    A stream is well formed when it is a sequence of documents, each one
    opened by its first chunk ([start_of_doc]) and closed by its last
    ([end_of_doc]), with no chunk outside a document. *)
Fixpoint well_formed_from (inside : bool) (stream : list chunk) : bool :=
  match stream with
  | [] => negb inside
  | c :: rest =>
      Bool.eqb (start_of_doc c) (negb inside)
      && well_formed_from (negb (end_of_doc c)) rest
  end.

Definition well_formed (stream : list chunk) : bool :=
  well_formed_from false stream.

(** Number of tuples whose [end_of_doc] flag is set. *)
Definition count_end_of_doc (stream : list chunk) : nat :=
  length (List.filter end_of_doc stream).

(** The per-chunk labels of a stream grouped by document: a group is
    closed at each [end_of_doc]. *)
Fixpoint documents_from (cur : list Z) (stream : list chunk) : list (list Z) :=
  match stream with
  | [] => []
  | c :: rest =>
      if end_of_doc c
      then (cur ++ [label c]) :: documents_from [] rest
      else documents_from (cur ++ [label c]) rest
  end.

Definition documents (stream : list chunk) : list (list Z) :=
  documents_from [] stream.

(** *** Facts about the loop *)

Lemma loop_app st s1 s2 :
  loop st (s1 ++ s2) = st' ← loop st s1; loop st' s2.
Proof.
  revert st. induction s1 as [|c s1 IH]; intros st; simpl; [done|].
  destruct (loop_body st c) as [st'|e]; simpl; [apply IH | done].
Qed.

Lemma count_end_of_doc_cons c s :
  count_end_of_doc (c :: s) =
  (if end_of_doc c then 1 else 0) + count_end_of_doc s.
Proof.
  unfold count_end_of_doc. simpl. by destruct (end_of_doc c).
Qed.

Lemma documents_from_length cur s :
  length (documents_from cur s) = count_end_of_doc s.
Proof.
  revert cur. induction s as [|c s IH]; intros cur; [done|].
  rewrite count_end_of_doc_cons. simpl.
  destruct (end_of_doc c); simpl; rewrite IH; done.
Qed.

(** Whatever the stream, a run that returns has appended one label per
    [end_of_doc] tuple. *)
Lemma loop_returns_length st s st' :
  loop st s = Ok st' ->
  length (all_labels st') = length (all_labels st) + count_end_of_doc s.
Proof.
  revert st. induction s as [|c s IH]; intros st H; simpl in H.
  - injection H as <-. unfold count_end_of_doc. simpl. lia.
  - rewrite count_end_of_doc_cons.
    unfold loop_body in H.
    destruct (append _ _) as [l|e]; simpl in H; [|done].
    destruct (end_of_doc c); simpl in H; apply IH in H; simpl in H;
      rewrite ?length_app in H; simpl in H; lia.
Qed.

(** The binding of [doc_labels] a well-formed stream maintains: inside a
    document it is the list of that document's labels so far. *)
Definition binding_ok (inside : bool) (cur : list Z) (b : doc_labels_binding) : Prop :=
  if inside then b = PyListOf cur else cur = [].

Lemma loop_well_formed inside cur st s :
  well_formed_from inside s = true ->
  binding_ok inside cur (doc_labels st) ->
  exists st',
    loop st s = Ok st' /\
    all_labels st' = all_labels st ++ List.map emit (documents_from cur s).
Proof.
  revert inside cur st. induction s as [|c s IH]; intros inside cur st Hwf Hb.
  - exists st. simpl. by rewrite app_nil_r.
  - simpl in Hwf. apply andb_true_iff in Hwf as [Hs Hwf].
    apply Bool.eqb_prop in Hs.
    assert (Hl : append (if start_of_doc c then PyListOf [] else doc_labels st)
                   (label c) = Ok (cur ++ [label c])).
    { rewrite Hs. destruct inside; simpl in *; subst; [rewrite Hb|]; done. }
    simpl. unfold loop_body. rewrite Hl. simpl.
    destruct (end_of_doc c) eqn:He; simpl in *.
    + destruct (IH false [] {| all_labels := all_labels st ++ [emit (cur ++ [label c])];
                              doc_labels := NdArrayOf (cur ++ [label c]) |}
                  Hwf eq_refl) as (st' & Hrun & Hout).
      exists st'. split; [done|]. rewrite Hout. simpl. by rewrite <- app_assoc.
    + destruct (IH true (cur ++ [label c])
                  {| all_labels := all_labels st;
                     doc_labels := PyListOf (cur ++ [label c]) |}
                  Hwf eq_refl) as (st' & Hrun & Hout).
      exists st'. split; done.
Qed.

Lemma predict_well_formed s :
  well_formed s = true ->
  predict s = Ok (List.map emit (documents s)).
Proof.
  intros Hwf.
  destruct (loop_well_formed false [] {| all_labels := []; doc_labels := Unbound |} s
              Hwf eq_refl) as (st' & Hrun & Hout).
  unfold predict. rewrite Hrun. simpl. by rewrite Hout.
Qed.

(** C2.  On a chunk stream that satisfies the start/end boundary
    invariant, [predict] returns, and the list it returns has as many
    document labels as the stream has tuples with [end_of_doc] set. *)
Theorem predict_length_eq_end_of_doc_count (stream : list chunk) :
  well_formed stream = true ->
  exists labels,
    predict stream = Ok labels /\
    length labels = count_end_of_doc stream.
Proof.
  intros Hwf. eexists. split; [by apply predict_well_formed|].
  rewrite length_map. apply documents_from_length.
Qed.

(** In a well-formed stream a chunk that opens a document starts a new
    group: the groups before it are those of the prefix. *)
Lemma documents_from_app_start inside cur pre c post :
  well_formed_from inside (pre ++ c :: post) = true ->
  binding_ok inside cur (PyListOf cur) ->
  start_of_doc c = true ->
  documents_from cur (pre ++ c :: post) =
  documents_from cur pre ++ documents_from [] (c :: post).
Proof.
  revert inside cur. induction pre as [|c' pre IH]; intros inside cur Hwf Hb Hs.
  - simpl in Hwf. apply andb_true_iff in Hwf as [Hi _].
    apply Bool.eqb_prop in Hi. rewrite Hs in Hi.
    destruct inside; [done|]. simpl in Hb. by subst.
  - simpl in Hwf. apply andb_true_iff in Hwf as [_ Hwf]. simpl.
    destruct (end_of_doc c'); simpl in Hwf.
    + simpl. f_equal. by apply (IH false).
    + by apply (IH true).
Qed.

(** The groups of a well-formed stream partition its labels in order. *)
Lemma documents_from_concat inside cur s :
  well_formed_from inside s = true ->
  binding_ok inside cur (PyListOf cur) ->
  concat (documents_from cur s) = cur ++ List.map label s.
Proof.
  revert inside cur. induction s as [|c s IH]; intros inside cur Hwf Hb.
  - simpl in *. destruct inside; [done|]. simpl in Hb. by subst.
  - simpl in Hwf. apply andb_true_iff in Hwf as [_ Hwf]. simpl.
    destruct (end_of_doc c); simpl in Hwf.
    + simpl. rewrite (IH false []) by done. by rewrite <- app_assoc.
    + rewrite (IH true) by done. by rewrite <- app_assoc.
Qed.

(** What the specification calls a majority vote over the labels [d] of a
    document: [m] is one of them, no label occurs more often, and [m] is
    the smallest of the labels that occur as often. *)
Definition majority_vote (d : list Z) (m : Z) : Prop :=
  In m d /\
  (forall x, (occurrences d x <= occurrences d m)%Z) /\
  (forall x, In x d -> occurrences d x = occurrences d m -> (m <= x)%Z).

Lemma documents_from_nonempty cur s d :
  In d (documents_from cur s) -> d <> [].
Proof.
  revert cur. induction s as [|c s IH]; intros cur Hd; simpl in Hd; [done|].
  destruct (end_of_doc c).
  - destruct Hd as [<-|Hd]; [by destruct cur|by eapply IH].
  - by eapply IH.
Qed.

Lemma Forall2_map_r {A B : Type} (P : A -> B -> Prop) (f : A -> B) (l : list A) :
  (forall x, In x l -> P x (f x)) -> Forall2 P l (List.map f l).
Proof.
  induction l as [|x l IH]; intros H; simpl; constructor.
  - apply H. by left.
  - apply IH. intros y Hy. apply H. by right.
Qed.

(** C7.  On a well-formed chunk stream [predict] returns one label per
    document, in order: the inverse decode of the majority vote over that
    document's per-chunk labels (the statistical mode: a label of the
    document that no other label outnumbers, the smallest one on ties);
    for a chunk that is a document of its own (both flags set) the label at
    its document's position is the decode of the chunk's raw label. *)
Theorem predict_emits_decoded_mode (stream : list chunk) :
  well_formed stream = true ->
  exists votes : list Z,
    Forall2 majority_vote (documents stream) votes /\
    votes = List.map scipy_mode (documents stream) /\
    predict stream =
      Ok (List.map (fun m => tolist (inverse_transform (np_asarray [m]))) votes) /\
    (forall pre c post,
        stream = pre ++ c :: post ->
        start_of_doc c = true -> end_of_doc c = true ->
        exists labels,
          predict stream = Ok labels /\
          labels !! count_end_of_doc pre =
            Some (tolist (inverse_transform (np_asarray [label c])))).
Proof.
  intros Hwf. pose proof (predict_well_formed stream Hwf) as Hp.
  exists (List.map scipy_mode (documents stream)).
  split; [|split; [done|split]].
  - apply Forall2_map_r. intros d Hd.
    apply scipy_mode_majority. by eapply documents_from_nonempty.
  - rewrite Hp, List.map_map. done.
  - intros pre c post -> Hs He. eexists. split; [exact Hp|].
    unfold documents.
    rewrite (documents_from_app_start false [] pre c post Hwf eq_refl Hs).
    simpl. rewrite He. simpl. rewrite List.map_app. simpl.
    rewrite <- (documents_from_length [] pre), <- (length_map emit).
    rewrite list_lookup_middle by done.
    unfold emit. by rewrite scipy_mode_singleton.
Qed.

(** C10 (as amended).  Every element of the list [predict] returns on a
    well-formed stream is the [tolist] of the label encoder's inverse
    transform of a one-element array.  It is a list exactly when that
    inverse transform returns an array with at least one axis, and the
    bare scalar when it returns a zero-dimensional array. *)
Theorem predict_elements_tolist_of_decoded (stream : list chunk) :
  well_formed stream = true ->
  exists labels,
    predict stream = Ok labels /\
    length labels = count_end_of_doc stream /\
    forall o, In o labels ->
      exists m,
        o = tolist (inverse_transform (np_asarray [m])) /\
        (is_py_list o = true <->
         exists rows, inverse_transform (np_asarray [m]) = Axis rows) /\
        (forall x, inverse_transform (np_asarray [m]) = Item x -> o = PyScalar x).
Proof.
  intros Hwf. eexists. split; [by apply predict_well_formed|].
  split; [rewrite length_map; apply documents_from_length|].
  intros o Ho. apply in_map_iff in Ho as (d & <- & _).
  exists (scipy_mode d). unfold emit. split; [done|].
  destruct (inverse_transform (np_asarray [scipy_mode d])) as [x|rows]; simpl.
  - split; [|by intros ? [= <-]]. split; [done|by intros [? ?]].
  - split; [|done]. split; [by eexists|done].
Qed.

(** After a document has been reduced, [doc_labels] names the array. *)
Lemma loop_body_end_of_doc st c st' :
  loop_body st c = Ok st' -> end_of_doc c = true ->
  exists l, doc_labels st' = NdArrayOf l.
Proof.
  unfold loop_body. intros H He.
  destruct (append _ _) as [l|e]; simpl in H; [|done].
  rewrite He in H. injection H as <-. by eexists.
Qed.

(** ... and a chunk that does not rebind it cannot append to it. *)
Lemma loop_body_after_reduction st c l :
  doc_labels st = NdArrayOf l -> start_of_doc c = false ->
  loop_body st c =
    Raise (AttributeError "'numpy.ndarray' object has no attribute 'append'").
Proof. unfold loop_body. by intros -> ->. Qed.

(** A chunk with [start_of_doc] rebinds [doc_labels]: the earlier binding
    is lost without a trace. *)
Lemma loop_body_rebinds st st' c :
  start_of_doc c = true -> all_labels st = all_labels st' ->
  loop_body st c = loop_body st' c.
Proof. unfold loop_body. by intros -> ->. Qed.

Lemma loop_body_opening st c :
  start_of_doc c = true -> end_of_doc c = false ->
  loop_body st c =
    Ok {| all_labels := all_labels st; doc_labels := PyListOf [label c] |}.
Proof. unfold loop_body. by intros -> ->. Qed.

(** C3 (as amended).  What [predict] does on streams that break the
    boundary invariant: a first tuple without [start_of_doc] (so also an
    [end_of_doc] seen before any [start_of_doc]) raises
    [UnboundLocalError] and nothing is returned; a tuple without
    [start_of_doc] right after an [end_of_doc] tuple raises as well; two
    tuples with [start_of_doc] in a row, the first without [end_of_doc],
    raise nothing: the first one is dropped and the result is that of
    the stream without it. *)
Theorem predict_on_boundary_violations :
  (forall c rest,
      start_of_doc c = false ->
      predict (c :: rest) = Raise (UnboundLocalError "doc_labels")) /\
  (forall pre c1 c2 post,
      end_of_doc c1 = true -> start_of_doc c2 = false ->
      raises (predict (pre ++ c1 :: c2 :: post))) /\
  (forall pre c1 c2 post,
      start_of_doc c1 = true -> end_of_doc c1 = false ->
      start_of_doc c2 = true ->
      predict (pre ++ c1 :: c2 :: post) = predict (pre ++ c2 :: post)).
Proof.
  split; [|split].
  - intros c rest Hs. unfold predict. simpl. unfold loop_body.
    by rewrite Hs.
  - intros pre c1 c2 post He Hs. unfold predict, raises.
    rewrite loop_app.
    destruct (loop _ pre) as [st|e]; simpl; [|by eexists].
    destruct (loop_body st c1) as [st1|e] eqn:H1; simpl; [|by eexists].
    destruct (loop_body_end_of_doc _ _ _ H1 He) as [l Hl].
    rewrite (loop_body_after_reduction _ _ _ Hl Hs). simpl. by eexists.
  - intros pre c1 c2 post Hs1 He1 Hs2. unfold predict.
    rewrite !loop_app.
    destruct (loop _ pre) as [st|e]; simpl; [|done].
    rewrite (loop_body_opening st c1 Hs1 He1). simpl.
    by rewrite (loop_body_rebinds _ st c2 Hs2).
Qed.

(** *** Further facts about the prediction loop *)

(** Whether [doc_labels] names a Python list, the only binding [append]
    accepts. *)
Definition is_py_list_binding (b : doc_labels_binding) : bool :=
  match b with
  | PyListOf _ => true
  | Unbound | NdArrayOf _ => false
  end.

(** The streams the loop runs through without raising: every chunk either
    opens a document or follows a chunk that did not close one. *)
Fixpoint appendable_from (bound : bool) (stream : list chunk) : bool :=
  match stream with
  | [] => true
  | c :: rest =>
      (start_of_doc c || bound) && appendable_from (negb (end_of_doc c)) rest
  end.

(** X3.  On any stream, well formed or not, a call of [predict] that
    returns has produced exactly one label per [end_of_doc] tuple. *)
Theorem predict_returns_one_label_per_end_of_doc
    (stream : list chunk) (labels : list (py_obj Decoded)) :
  predict stream = Ok labels ->
  length labels = count_end_of_doc stream.
Proof.
  unfold predict. intros H.
  destruct (loop _ stream) as [st|e] eqn:Hl; simpl in H; [|done].
  injection H as <-. by apply loop_returns_length in Hl.
Qed.

(** The labels already emitted are carried along untouched. *)
Lemma loop_frame (a x : list (py_obj Decoded)) (b : doc_labels_binding) s :
  loop {| all_labels := a ++ x; doc_labels := b |} s =
  st ← loop {| all_labels := x; doc_labels := b |} s;
  Ok {| all_labels := a ++ all_labels st; doc_labels := doc_labels st |}.
Proof.
  revert x b. induction s as [|c s IH]; intros x b; simpl; [done|].
  unfold loop_body. simpl.
  destruct (append _ _) as [l|e]; simpl; [|done].
  destruct (end_of_doc c); simpl.
  - rewrite <- app_assoc. apply IH.
  - apply IH.
Qed.

Lemma loop_extends st s st' :
  loop st s = Ok st' -> exists ext, all_labels st' = all_labels st ++ ext.
Proof.
  revert st. induction s as [|c s IH]; intros st H; simpl in H.
  - injection H as <-. exists []. by rewrite app_nil_r.
  - unfold loop_body in H.
    destruct (append _ _) as [l|e]; simpl in H; [|done].
    destruct (end_of_doc c); simpl in H; apply IH in H as [ext H]; simpl in H.
    + eexists. rewrite H, <- app_assoc. done.
    + by eexists.
Qed.

Lemma loop_without_end st s st' :
  (forall c, In c s -> end_of_doc c = false) ->
  loop st s = Ok st' -> all_labels st' = all_labels st.
Proof.
  revert st. induction s as [|c s IH]; intros st Hend H; simpl in H.
  - by injection H as <-.
  - unfold loop_body in H.
    destruct (append _ _) as [l|e]; simpl in H; [|done].
    rewrite (Hend c ltac:(by left)) in H. simpl in H.
    apply IH in H; [done|]. intros c' Hc'. apply Hend. by right.
Qed.

(** X4.  Streams compose: when the second stream is empty or opens with a
    [start_of_doc] chunk, [predict] on the concatenation is [predict] on
    the first stream followed by [predict] on the second, the two label
    lists appended (and the first exception met, if any, raised). *)
Theorem predict_app (s1 s2 : list chunk) :
  match s2 with
  | [] => True
  | c :: _ => start_of_doc c = true
  end ->
  predict (s1 ++ s2) =
    o1 ← predict s1; o2 ← predict s2; Ok (o1 ++ o2).
Proof.
  intros Hhead. unfold predict. rewrite loop_app.
  destruct (loop _ s1) as [st1|e]; simpl; [|done].
  destruct s2 as [|c s2].
  - simpl. by rewrite app_nil_r.
  - assert (Hr : loop st1 (c :: s2) =
                 loop {| all_labels := all_labels st1 ++ []; doc_labels := Unbound |}
                   (c :: s2)).
    { simpl. by rewrite (loop_body_rebinds st1
                {| all_labels := all_labels st1 ++ []; doc_labels := Unbound |} c Hhead)
        by (simpl; by rewrite app_nil_r). }
    rewrite Hr, loop_frame. clear Hr.
    destruct (loop _ (c :: s2)) as [st2|e]; done.
Qed.

(** X5.  Labels are only ever appended: if [predict] returns on a stream,
    it returns on every prefix of it, with a prefix of the labels. *)
Theorem predict_prefix (s1 s2 : list chunk) (labels : list (py_obj Decoded)) :
  predict (s1 ++ s2) = Ok labels ->
  exists labels1 rest, predict s1 = Ok labels1 /\ labels = labels1 ++ rest.
Proof.
  unfold predict. rewrite loop_app. intros H.
  destruct (loop _ s1) as [st1|e]; simpl in H; [|done].
  destruct (loop st1 s2) as [st2|e] eqn:H2; simpl in H; [|done].
  injection H as <-. apply loop_extends in H2 as [ext H2].
  exists (all_labels st1), ext. done.
Qed.

(** X6.  Chunks after the last [end_of_doc] contribute nothing: if the
    stream ends with chunks none of which closes a document and [predict]
    returns, the labels are those of the stream without these chunks. *)
Theorem predict_unfinished_document_dropped
    (s tail : list chunk) (labels : list (py_obj Decoded)) :
  (forall c, In c tail -> end_of_doc c = false) ->
  predict (s ++ tail) = Ok labels ->
  predict s = Ok labels.
Proof.
  unfold predict. rewrite loop_app. intros Hend H.
  destruct (loop _ s) as [st1|e]; simpl in *; [|done].
  destruct (loop st1 tail) as [st2|e] eqn:H2; simpl in H; [|done].
  injection H as <-. by rewrite (loop_without_end _ _ _ Hend H2).
Qed.

(** X7.  The label emitted for a document does not depend on the order
    in which its chunks were predicted. *)
Theorem emit_permutation (d1 d2 : list Z) :
  Permutation d1 d2 -> emit d1 = emit d2.
Proof.
  intros Hp. unfold emit. by rewrite (scipy_mode_permutation d1 d2 Hp).
Qed.

(** X8.  A label predicted for more than half of the chunks of a document
    is the one decoded and emitted for it. *)
Theorem emit_strict_majority (d : list Z) (x : Z) :
  (Z.of_nat (length d) < 2 * occurrences d x)%Z ->
  emit d = tolist (inverse_transform (np_asarray [x])).
Proof.
  intros Hmaj. unfold emit. by rewrite (scipy_mode_strict_majority d x Hmaj).
Qed.

(** X9.  The label emitted for a document is the decode of a label some
    chunk of the document was given, one that no other label outnumbers,
    the smallest of those when several are as frequent. *)
Theorem emit_majority_vote (d : list Z) :
  d <> [] ->
  exists m,
    emit d = tolist (inverse_transform (np_asarray [m])) /\
    In m d /\
    (forall x, (occurrences d x <= occurrences d m)%Z) /\
    (forall x, In x d -> occurrences d x = occurrences d m -> (m <= x)%Z).
Proof.
  intros Hne. exists (scipy_mode d). split; [done|].
  by apply scipy_mode_majority.
Qed.

End Predict.

(** *** The loop when the calls it makes raise

    [predict] above takes the label encoder's [inverse_transform] as a
    function that always returns, and the chunk generator as one that ends
    normally.  Here both may raise: the decoder returns a result, and the
    iteration over [process_long_sequence] may end with an exception in
    place of [StopIteration].  ([np.asarray] and [mode] on a non-empty list
    of integer labels do not raise.) *)

Section PredictRaising.
Context {Input Meta Decoded : Type}.

Variable inverse_transform : ndarray Z -> result (ndarray Decoded).

(** The tuples the generator yields and the exception, if any, that ends
    the iteration. *)
Record chunk_generator : Type := Generator {
  yielded : list (@chunk Input Meta);
  raised : option exception
}.

(** Lines 67-70. *)
Definition emit_raising (d : list Z) : result (py_obj Decoded) :=
  let doc_mode := scipy_mode d in
  decoded ← inverse_transform (np_asarray [doc_mode]);
  Ok (tolist decoded).

Definition loop_body_raising (st : @locals Decoded) (c : @chunk Input Meta) :
    result (@locals Decoded) :=
  let b := if start_of_doc c then PyListOf [] else doc_labels st in
  l ← append b (label c);
  if end_of_doc c
  then
    o ← emit_raising l;
    Ok {| all_labels := all_labels st ++ [o]; doc_labels := NdArrayOf l |}
  else Ok {| all_labels := all_labels st; doc_labels := PyListOf l |}.

Fixpoint loop_raising (st : @locals Decoded) (stream : list (@chunk Input Meta)) :
    result (@locals Decoded) :=
  match stream with
  | [] => Ok st
  | c :: rest => st' ← loop_body_raising st c; loop_raising st' rest
  end.

Definition predict_raising (gen : chunk_generator) : result (list (py_obj Decoded)) :=
  st ← loop_raising {| all_labels := []; doc_labels := Unbound |} (yielded gen);
  match raised gen with
  | Some e => Raise e
  | None => Ok (all_labels st)
  end.

(** The label lists that reach the reduction of lines 67-70, in order: the
    labels gathered since the latest [start_of_doc], taken at each
    [end_of_doc]. *)
Fixpoint reductions_from (cur : list Z) (stream : list (@chunk Input Meta)) :
    list (list Z) :=
  match stream with
  | [] => []
  | c :: rest =>
      let l := (if start_of_doc c then [] else cur) ++ [label c] in
      if end_of_doc c
      then l :: reductions_from [] rest
      else reductions_from l rest
  end.

Definition reductions (stream : list (@chunk Input Meta)) : list (list Z) :=
  reductions_from [] stream.

(** [cur] is the list [doc_labels] names, when it names one. *)
Definition tracks (cur : list Z) (b : doc_labels_binding) : Prop :=
  forall l, b = PyListOf l -> l = cur.

Lemma append_cases (st : @locals Decoded) (cur : list Z) (c : @chunk Input Meta) :
  tracks cur (doc_labels st) ->
  let b := if start_of_doc c then PyListOf [] else doc_labels st in
  (append b (label c) = Ok ((if start_of_doc c then [] else cur) ++ [label c]) /\
   start_of_doc c || is_py_list_binding (doc_labels st) = true) \/
  (start_of_doc c = false /\ is_py_list_binding (doc_labels st) = false /\
   ((doc_labels st = Unbound /\
     append b (label c) = Raise (UnboundLocalError "doc_labels")) \/
    ((exists a, doc_labels st = NdArrayOf a) /\
     append b (label c) =
       Raise (AttributeError "'numpy.ndarray' object has no attribute 'append'")))).
Proof.
  intros Ht. destruct (start_of_doc c); simpl; [by left|].
  destruct (doc_labels st) as [|l|a] eqn:Hb; simpl.
  - right. split; [done|]. split; [done|]. by left.
  - left. by rewrite (Ht l eq_refl).
  - right. split; [done|]. split; [done|]. right. split; [by eexists|done].
Qed.

Lemma emit_raising_returns (d : list Z) :
  returns (emit_raising d) <->
  returns (inverse_transform (np_asarray [scipy_mode d])).
Proof.
  unfold emit_raising, returns.
  destruct (inverse_transform _) as [a|e]; simpl.
  - split; intros _; by eexists.
  - split; by intros [? ?].
Qed.

Lemma emit_raising_raise (d : list Z) (e : exception) :
  emit_raising d = Raise e ->
  inverse_transform (np_asarray [scipy_mode d]) = Raise e.
Proof.
  unfold emit_raising. destruct (inverse_transform _) as [a|e']; simpl; [done|].
  by intros [= <-].
Qed.

Lemma tracks_not_list (cur : list Z) (b : doc_labels_binding) :
  is_py_list_binding b = false -> tracks cur b.
Proof. intros H l ->. done. Qed.

Lemma loop_raising_returns_iff (st : @locals Decoded) (cur : list Z) s :
  tracks cur (doc_labels st) ->
  returns (loop_raising st s) <->
  appendable_from (is_py_list_binding (doc_labels st)) s = true /\
  forall d, In d (reductions_from cur s) -> returns (emit_raising d).
Proof.
  revert st cur. induction s as [|c s IH]; intros st cur Ht.
  - simpl. split; [done|]. intros _. by eexists.
  - cbn [loop_raising appendable_from reductions_from].
    unfold loop_body_raising.
    destruct (append_cases st cur c Ht) as [[-> Hok]|(Hs & Hb & Hraise)].
    + rewrite Hok. cbn [andb]. simpl.
      set (l := (if start_of_doc c then [] else cur) ++ [label c]).
      destruct (end_of_doc c); simpl.
      * destruct (emit_raising l) as [o|e] eqn:He; simpl.
        -- rewrite (IH {| all_labels := all_labels st ++ [o];
                          doc_labels := NdArrayOf l |} []
                      ltac:(by apply tracks_not_list)). simpl.
           split.
           ++ intros [Ha Hd]. split; [done|].
              intros d [<-|Hin]; [rewrite He; by eexists|by apply Hd].
           ++ intros [Ha Hd]. split; [done|]. intros d Hin. apply Hd. by right.
        -- split; [by intros [? ?]|].
           intros [_ Hd]. destruct (Hd l ltac:(by left)) as [o Ho].
           rewrite He in Ho. done.
      * rewrite (IH {| all_labels := all_labels st; doc_labels := PyListOf l |} l);
          [done|]. simpl. by intros l' [= <-].
    + destruct Hraise as [[_ Hr]|[_ Hr]]; rewrite Hr, Hs, Hb; simpl;
        (split; [by intros [? ?]|by intros [? _]]).
Qed.

(** X1.  [predict] returns a label list exactly when iterating the chunk
    generator ends without an exception, the first chunk has
    [start_of_doc] and so has every chunk that follows an [end_of_doc]
    chunk, and the label encoder's [inverse_transform] returns on the mode
    of every label list that gets reduced; in every other case it
    raises. *)
Theorem predict_raising_returns_iff (gen : chunk_generator) :
  returns (predict_raising gen) <->
  raised gen = None /\
  appendable_from false (yielded gen) = true /\
  forall d, In d (reductions (yielded gen)) ->
    returns (inverse_transform (np_asarray [scipy_mode d])).
Proof.
  unfold predict_raising, reductions.
  pose proof (loop_raising_returns_iff
                {| all_labels := []; doc_labels := Unbound |} [] (yielded gen)
                ltac:(by apply tracks_not_list)) as Hl.
  simpl in Hl.
  destruct (loop_raising _ (yielded gen)) as [st|e]; simpl.
  - destruct (proj1 Hl ltac:(by eexists)) as [Ha Hd].
    destruct (raised gen) as [e|].
    + split; [by intros [? ?]|by intros [? _]].
    + split; [|intros _; by eexists].
      intros _. split; [done|]. split; [done|].
      intros d Hin. by apply emit_raising_returns, Hd.
  - split; [by intros [? ?]|].
    intros (_ & Ha & Hd).
    destruct (proj2 Hl) as [? ?]; [|done].
    split; [done|]. intros d Hin. by apply emit_raising_returns, Hd.
Qed.

Lemma loop_raising_diagnosis (st : @locals Decoded) (cur : list Z) s e :
  tracks cur (doc_labels st) ->
  loop_raising st s = Raise e ->
  (exists c rest, s = c :: rest /\ start_of_doc c = false /\
     ((doc_labels st = Unbound /\ e = UnboundLocalError "doc_labels") \/
      ((exists a, doc_labels st = NdArrayOf a) /\
       e = AttributeError "'numpy.ndarray' object has no attribute 'append'"))) \/
  (exists pre c1 c2 post,
     s = pre ++ c1 :: c2 :: post /\
     end_of_doc c1 = true /\ start_of_doc c2 = false /\
     e = AttributeError "'numpy.ndarray' object has no attribute 'append'") \/
  (exists d, In d (reductions_from cur s) /\ emit_raising d = Raise e).
Proof.
  revert st cur. induction s as [|c s IH]; intros st cur Ht H; [done|].
  cbn [loop_raising] in H. unfold loop_body_raising in H.
  cbn [reductions_from].
  destruct (append_cases st cur c Ht) as [[Happ _]|(Hs & _ & Hraise)].
  - rewrite Happ in H. simpl in H.
    set (l := (if start_of_doc c then [] else cur) ++ [label c]) in *.
    destruct (end_of_doc c) eqn:He; simpl in H.
    + destruct (emit_raising l) as [o|e'] eqn:Hemit; simpl in H.
      * apply (IH _ []) in H; [|by apply tracks_not_list].
        destruct H
          as [(c2 & rest & -> & Hs2 & Hcase)|[(pre & c1 & c2 & post & -> & He1 & Hs2 & ->)|(d & Hd & Hde)]].
        -- right. left. exists [], c, c2, rest. split; [done|]. split; [done|].
           split; [done|]. simpl in Hcase.
           destruct Hcase as [[Hu _]|[_ ->]]; done.
        -- right. left. by exists (c :: pre), c1, c2, post.
        -- right. right. exists d. split; [by right|done].
      * injection H as <-. right. right. exists l. split; [by left|done].
    + apply (IH _ l) in H; [|by intros l' [= <-]].
      destruct H
        as [(c2 & rest & -> & Hs2 & Hcase)|[(pre & c1 & c2 & post & -> & He1 & Hs2 & ->)|(d & Hd & Hde)]].
      * simpl in Hcase. destruct Hcase as [[Hu _]|[[a Ha] _]]; done.
      * right. left. by exists (c :: pre), c1, c2, post.
      * right. right. by exists d.
  - left. exists c, s. split; [done|]. split; [done|].
    destruct Hraise as [[Hu Hr]|[Ha Hr]]; rewrite Hr in H; injection H as <-.
    + by left.
    + by right.
Qed.

(** X2.  When [predict] raises, the exception is one of four: the
    [UnboundLocalError] of appending to the unbound accumulator, and then
    the first chunk lacks [start_of_doc]; the [AttributeError] of appending
    to an array, and then a chunk without [start_of_doc] directly follows a
    chunk with [end_of_doc]; an exception the label encoder's
    [inverse_transform] raised on the mode of a label list being reduced;
    or the exception that ended the iteration of the chunk generator. *)
Theorem predict_raising_diagnosis (gen : chunk_generator) (e : exception) :
  predict_raising gen = Raise e ->
  (e = UnboundLocalError "doc_labels" /\
   exists c rest, yielded gen = c :: rest /\ start_of_doc c = false) \/
  (e = AttributeError "'numpy.ndarray' object has no attribute 'append'" /\
   exists pre c1 c2 post,
     yielded gen = pre ++ c1 :: c2 :: post /\
     end_of_doc c1 = true /\ start_of_doc c2 = false) \/
  (exists d,
     In d (reductions (yielded gen)) /\
     inverse_transform (np_asarray [scipy_mode d]) = Raise e) \/
  raised gen = Some e.
Proof.
  unfold predict_raising, reductions. intros H.
  destruct (loop_raising _ (yielded gen)) as [st|e'] eqn:Hl; simpl in H.
  - destruct (raised gen) as [e'|]; [|done]. injection H as <-.
    right. right. by right.
  - injection H as <-.
    apply (loop_raising_diagnosis _ []) in Hl; [|by apply tracks_not_list].
    destruct Hl
      as [(c & rest & Hy & Hs & [[_ ->]|[[a Ha] _]])|[(pre & c1 & c2 & post & Hy & He & Hs & ->)|(d & Hd & Hde)]].
    + left. split; [done|]. by exists c, rest.
    + done.
    + right. left. split; [done|]. by exists pre, c1, c2, post.
    + right. right. left. exists d. split; [done|]. by apply emit_raising_raise.
Qed.

End PredictRaising.

(** With a decoder that always returns and a generator that ends normally
    the loop is the one of [predict]. *)
Lemma predict_raising_total {Input Meta Decoded : Type}
    (inverse_transform : ndarray Z -> ndarray Decoded)
    (stream : list (@chunk Input Meta)) :
  predict_raising (fun a => Ok (inverse_transform a))
    {| yielded := stream; raised := None |} =
  predict inverse_transform stream.
Proof.
  unfold predict_raising, predict. simpl.
  generalize ({| all_labels := []; doc_labels := Unbound |} : @locals Decoded).
  induction stream as [|c stream IH]; intros st; simpl; [done|].
  unfold loop_body_raising, loop_body, emit_raising, emit. simpl.
  destruct (append _ _) as [l|e]; simpl; [|done].
  destruct (end_of_doc c); simpl; apply IH.
Qed.

(** [predict_proba] (lines 73-80): the body is a single [raise]. *)
Definition predict_proba {X Context R : Type} (x : X) (context : option Context) :
  result R :=
  Raise (AttributeError "`Regressor` model does not support `predict_proba`.").

(** *** Concrete streams

    Chunks with no payload, and the label decoder that is the identity on
    arrays. *)

Definition chunk_of (s e : bool) (l : Z) : chunk (Input := unit) (Meta := unit) :=
  {| chunk_input := tt; start_of_doc := s; end_of_doc := e; label := l;
     chunk_meta := tt |}.

Definition decode_same (a : ndarray Z) : ndarray Z := a.

(** Two documents: three chunks voting [1; 1; 2], then a single chunk. *)
Definition two_documents : list chunk :=
  [chunk_of true false 1; chunk_of false false 1; chunk_of false true 2;
   chunk_of true true 5].

Example predict_two_documents :
  predict decode_same two_documents =
    Ok [PyList [PyScalar 1%Z]; PyList [PyScalar 5%Z]].
Proof. reflexivity. Qed.

(** A tie [1; 2] goes to the smaller label. *)
Example predict_tie :
  predict decode_same [chunk_of true false 2; chunk_of false true 1] =
    Ok [PyList [PyScalar 1%Z]].
Proof. reflexivity. Qed.

Lemma predict_length_eq_end_of_doc_count_witness :
  exists labels,
    predict decode_same two_documents = Ok labels /\
    length labels = count_end_of_doc two_documents.
Proof.
  apply (predict_length_eq_end_of_doc_count decode_same two_documents).
  reflexivity.
Defined.

Lemma predict_emits_decoded_mode_witness :
  exists votes : list Z,
    Forall2 majority_vote (documents two_documents) votes /\
    votes = List.map scipy_mode (documents two_documents) /\
    predict decode_same two_documents =
      Ok (List.map (fun m => tolist (decode_same (np_asarray [m]))) votes) /\
    (forall pre c post,
        two_documents = pre ++ c :: post ->
        start_of_doc c = true -> end_of_doc c = true ->
        exists labels,
          predict decode_same two_documents = Ok labels /\
          labels !! count_end_of_doc pre =
            Some (tolist (decode_same (np_asarray [label c])))).
Proof.
  apply (predict_emits_decoded_mode decode_same two_documents).
  reflexivity.
Defined.

(** A decoder that hands back a zero-dimensional array for a one-element
    array (as a squeezing encoder does). *)
Definition decode_squeeze (a : ndarray Z) : ndarray Z :=
  match a with
  | Axis [Item x] => Item x
  | _ => a
  end.

Example predict_two_documents_squeezed :
  predict decode_squeeze two_documents = Ok [PyScalar 1%Z; PyScalar 5%Z].
Proof. reflexivity. Qed.

(** The elements of the returned list are not lists whatever the label
    encoder: with [decode_squeeze] they are bare scalars. *)
Lemma predict_elements_not_always_lists :
  ~ (forall (inverse_transform : ndarray Z -> ndarray Z)
            (stream : list (chunk (Input := unit) (Meta := unit))),
        well_formed stream = true ->
        exists labels,
          predict inverse_transform stream = Ok labels /\
          forall o, In o labels -> is_py_list o = true).
Proof.
  intros H. destruct (H decode_squeeze two_documents eq_refl) as (labels & Hp & Hl).
  vm_compute in Hp. injection Hp as <-.
  specialize (Hl (PyScalar 1%Z) ltac:(by left)). discriminate Hl.
Qed.

Lemma predict_elements_tolist_of_decoded_witness :
  exists labels,
    predict decode_squeeze two_documents = Ok labels /\
    length labels = count_end_of_doc two_documents /\
    forall o, In o labels ->
      exists m,
        o = tolist (decode_squeeze (np_asarray [m])) /\
        (is_py_list o = true <->
         exists rows, decode_squeeze (np_asarray [m]) = Axis rows) /\
        (forall x, decode_squeeze (np_asarray [m]) = Item x -> o = PyScalar x).
Proof.
  apply (predict_elements_tolist_of_decoded decode_squeeze two_documents).
  reflexivity.
Defined.

(** Two chunks that both open a document, the first never closed. *)
Definition double_start : list chunk :=
  [chunk_of true false 1; chunk_of true true 2].

(** Not every stream violating the boundary invariant makes [predict]
    raise: [double_start] violates it and a label list is
    returned, with the first chunk silently dropped. *)
Lemma predict_double_start_not_rejected :
  ~ (forall stream : list (chunk (Input := unit) (Meta := unit)),
        well_formed stream = false -> raises (predict decode_same stream)).
Proof.
  intros H. destruct (H double_start eq_refl) as [e He].
  vm_compute in He. discriminate He.
Qed.

Lemma predict_on_boundary_violations_witness :
  predict decode_same [chunk_of false true 1] =
    Raise (UnboundLocalError "doc_labels") /\
  raises (predict decode_same
            ([] ++ chunk_of true true 1 :: chunk_of false true 2 :: [])) /\
  predict decode_same ([] ++ chunk_of true false 1 :: chunk_of true true 2 :: []) =
    predict decode_same ([] ++ chunk_of true true 2 :: []).
Proof.
  destruct (predict_on_boundary_violations (Input := unit) (Meta := unit)
              decode_same) as (H1 & H2 & H3).
  split; [|split].
  - apply H1. reflexivity.
  - apply H2; reflexivity.
  - apply H3; reflexivity.
Defined.

(** *** The further facts on concrete streams *)

(** A label encoder whose [inverse_transform] raises (NumPy's [AxisError]
    is a [ValueError]). *)
Definition decode_axis_error (a : ndarray Z) : result (ndarray Z) :=
  Raise (ValueError "axis 1 is out of bounds for array of dimension 1").

Example predict_raising_on_two_documents :
  predict_raising decode_axis_error
    {| yielded := two_documents; raised := None |} =
    Raise (ValueError "axis 1 is out of bounds for array of dimension 1") /\
  predict_raising (fun a => Ok (decode_same a))
    {| yielded := two_documents; raised := Some (KeyError "features") |} =
    Raise (KeyError "features").
Proof. split; reflexivity. Qed.

Lemma predict_raising_diagnosis_witness :
  let e := ValueError "axis 1 is out of bounds for array of dimension 1" in
  (e = UnboundLocalError "doc_labels" /\
   exists c rest, two_documents = c :: rest /\ start_of_doc c = false) \/
  (e = AttributeError "'numpy.ndarray' object has no attribute 'append'" /\
   exists pre c1 c2 post,
     two_documents = pre ++ c1 :: c2 :: post /\
     end_of_doc c1 = true /\ start_of_doc c2 = false) \/
  (exists d,
     In d (reductions two_documents) /\
     decode_axis_error (np_asarray [scipy_mode d]) = Raise e) \/
  (None : option exception) = Some e.
Proof.
  intros e.
  apply (predict_raising_diagnosis decode_axis_error
           {| yielded := two_documents; raised := None |} e).
  reflexivity.
Defined.

Lemma predict_returns_one_label_per_end_of_doc_witness :
  length [PyList [PyScalar 1%Z]; PyList [PyScalar 5%Z]] =
  count_end_of_doc two_documents.
Proof.
  apply (predict_returns_one_label_per_end_of_doc decode_same two_documents).
  reflexivity.
Defined.

Lemma predict_app_witness :
  predict decode_same (two_documents ++ double_start) =
    o1 ← predict decode_same two_documents;
    o2 ← predict decode_same double_start;
    Ok (o1 ++ o2).
Proof.
  apply (predict_app decode_same two_documents double_start).
  reflexivity.
Defined.

Lemma predict_prefix_witness :
  exists labels1 rest,
    predict decode_same [chunk_of true true 1] = Ok labels1 /\
    [PyList [PyScalar 1%Z]; PyList [PyScalar 2%Z]] = labels1 ++ rest.
Proof.
  apply (predict_prefix decode_same [chunk_of true true 1] [chunk_of true true 2]).
  reflexivity.
Defined.

Lemma predict_unfinished_document_dropped_witness :
  predict decode_same [chunk_of true true 1] = Ok [PyList [PyScalar 1%Z]].
Proof.
  apply (predict_unfinished_document_dropped decode_same
           [chunk_of true true 1] [chunk_of true false 2; chunk_of false false 3]).
  - intros c [<-|[<-|[]]]; reflexivity.
  - reflexivity.
Defined.

Lemma emit_permutation_witness :
  emit decode_same [1; 2; 1]%Z = emit decode_same [2; 1; 1]%Z.
Proof.
  apply (emit_permutation decode_same [1; 2; 1]%Z [2; 1; 1]%Z).
  apply perm_swap.
Defined.

Lemma emit_strict_majority_witness :
  emit decode_same [3; 1; 3]%Z = tolist (decode_same (np_asarray [3%Z])).
Proof.
  apply (emit_strict_majority decode_same [3; 1; 3]%Z 3%Z).
  vm_compute. reflexivity.
Defined.

Lemma emit_majority_vote_witness :
  exists m,
    emit decode_same [2; 1]%Z = tolist (decode_same (np_asarray [m])) /\
    In m [2; 1]%Z /\
    (forall x, (occurrences [2; 1]%Z x <= occurrences [2; 1]%Z m)%Z) /\
    (forall x, In x [2; 1]%Z ->
               occurrences [2; 1]%Z x = occurrences [2; 1]%Z m -> (m <= x)%Z).
Proof.
  apply (emit_majority_vote decode_same [2; 1]%Z). discriminate.
Defined.

End OrdinalRegressor.

(** ** [ComparisonOrdinalRegressor]: the symmetric comparison transform *)

Module ComparisonOrdinalRegressor.

(** Tensors carry their rank in the type: a rank-[n] tensor is an
    [n]-fold nested list.  Rows along one axis of a tensor have the same
    shape. *)

(** Elementwise addition of two tensors, one axis at a time; the empty list
    stands for the zero a sum starts from. *)
Fixpoint tensor_add {A : Type} (add : A -> A -> A) (u v : list A) : list A :=
  match u, v with
  | [], _ => v
  | _, [] => u
  | x :: u', y :: v' => add x y :: tensor_add add u' v'
  end.

(** [tf.reduce_sum(t, 1)]: for each entry of the leading (batch) axis, the
    sum of its rows along axis 1 (an axis that holds the two documents of a
    pair; on an empty axis the sum here is the empty list, where TensorFlow
    gives zeros of the row shape). *)
Definition reduce_sum_1 {A : Type} (add : A -> A -> A)
    (t : list (list (list A))) : list (list A) :=
  List.map (fun rows => fold_left (tensor_add add) rows []) t.

(** The entries of the featurizer state [_target_model] reads, by rank of
    [features] and of [sequence_features]/[context]; [context] is an
    optional key, the remaining keys travel in [other_keys]. *)
Record featurizer_state (Pooled Seq Other : Type) : Type := FeaturizerState {
  features : Pooled;
  sequence_features : Seq;
  context : option Seq;
  other_keys : Other
}.
Arguments FeaturizerState {Pooled Seq Other}.
Arguments features {Pooled Seq Other}.
Arguments sequence_features {Pooled Seq Other}.
Arguments context {Pooled Seq Other}.
Arguments other_keys {Pooled Seq Other}.

Section TargetModel.
(** Tensor elements with their addition and absolute value. *)
Context {F Other Logits : Type}.
Variable fadd : F -> F -> F.
Variable fabs : F -> F.
Hypothesis fadd_comm : forall x y, fadd x y = fadd y x.

Definition vec : Type := list F.                  (* [n_embed] *)
Definition mat : Type := list vec.                (* [seq, n_embed] *)

(** State on entry: [features] is [batch, 2, n_embed], the sequence
    tensors are [batch, 2, seq, n_embed]. *)
Definition paired_state : Type :=
  featurizer_state (list (list vec)) (list (list mat)) Other.
(** State handed to the parent class: the pair axis is gone. *)
Definition merged_state : Type :=
  featurizer_state (list vec) (list mat) Other.

(** [OrdinalRegressor._target_model] (lines 91-104), which
    [_add_context_embed] and the [ordinal_regressor] block make a function
    of the state it is given. *)
Variable super_target_model : merged_state -> Logits.

Definition tf_abs_2 (t : list vec) : list vec :=
  List.map (List.map fabs) t.
Definition tf_abs_3 (t : list mat) : list mat :=
  List.map (List.map (List.map fabs)) t.

Definition pooled_transform (t : list (list vec)) : list vec :=
  tf_abs_2 (reduce_sum_1 fadd t).
Definition sequence_transform (t : list (list mat)) : list mat :=
  tf_abs_3 (reduce_sum_1 (tensor_add fadd) t).

(** The three assignments of lines 141-150. *)
Definition comparison_transform (st : paired_state) : merged_state :=
  {| sequence_features := sequence_transform (sequence_features st);
     features := pooled_transform (features st);
     context :=
       match context st with
       | Some c => Some (sequence_transform c)
       | None => None
       end;
     other_keys := other_keys st |}.

Definition _target_model (st : paired_state) : Logits :=
  super_target_model (comparison_transform st).

(** Swapping the two documents of every pair. *)
Definition swap_pair {A : Type} (p : list A) : list A :=
  match p with
  | [a; b] => [b; a]
  | _ => p
  end.

Definition swap_documents (st : paired_state) : paired_state :=
  {| sequence_features := List.map swap_pair (sequence_features st);
     features := List.map swap_pair (features st);
     context := option_map (List.map swap_pair) (context st);
     other_keys := other_keys st |}.

Lemma tensor_add_comm {A : Type} (add : A -> A -> A) :
  (forall x y, add x y = add y x) ->
  forall u v, tensor_add add u v = tensor_add add v u.
Proof.
  intros Hc. induction u as [|x u IH]; intros [|y v]; simpl; try done.
  by rewrite Hc, IH.
Qed.

Lemma tensor_add_nil_r {A : Type} (add : A -> A -> A) (u : list A) :
  tensor_add add u [] = u.
Proof. by destruct u. Qed.

Lemma reduce_sum_1_swap {A : Type} (add : A -> A -> A) :
  (forall x y, add x y = add y x) ->
  forall t, reduce_sum_1 add (List.map swap_pair t) = reduce_sum_1 add t.
Proof.
  intros Hc t. unfold reduce_sum_1. rewrite List.map_map.
  apply List.map_ext. intros rows.
  destruct rows as [|a [|b [|c rows]]]; simpl; try done.
  apply tensor_add_comm, Hc.
Qed.

Lemma comparison_transform_swap (st : paired_state) :
  comparison_transform (swap_documents st) = comparison_transform st.
Proof.
  unfold comparison_transform, swap_documents, pooled_transform,
    sequence_transform. simpl.
  rewrite (reduce_sum_1_swap fadd fadd_comm).
  rewrite !(reduce_sum_1_swap (tensor_add fadd) (tensor_add_comm fadd fadd_comm)).
  destruct (context st) as [c|]; simpl; [|done].
  by rewrite (reduce_sum_1_swap (tensor_add fadd) (tensor_add_comm fadd fadd_comm)).
Qed.

(** C4.  The comparison transform (sum over the pair axis, then absolute
    value, on the pooled features, the sequence features and the context
    when present) does not change when the two documents of each pair
    are swapped, and so neither do the logits [_target_model] returns.
    For a single pair it reads [transform a b = transform b a]. *)
Theorem comparison_transform_symmetric (st : paired_state) :
  comparison_transform (swap_documents st) = comparison_transform st /\
  _target_model (swap_documents st) = _target_model st /\
  (forall a b : vec, pooled_transform [[a; b]] = pooled_transform [[b; a]]) /\
  (forall a b : mat, sequence_transform [[a; b]] = sequence_transform [[b; a]]).
Proof.
  split; [apply comparison_transform_swap|].
  split; [unfold _target_model; by rewrite comparison_transform_swap|].
  split; intros a b.
  - unfold pooled_transform.
    by rewrite <- (reduce_sum_1_swap fadd fadd_comm [[a; b]]).
  - unfold sequence_transform.
    by rewrite <- (reduce_sum_1_swap (tensor_add fadd)
                    (tensor_add_comm fadd fadd_comm) [[a; b]]).
Qed.

Lemma tensor_add_zip_with {A : Type} (add : A -> A -> A) (u v : list A) :
  length u = length v -> tensor_add add u v = zip_with add u v.
Proof.
  revert v. induction u as [|x u IH]; intros [|y v] Hlen; simpl in *; try done.
  f_equal. apply IH. lia.
Qed.

(** X10.  On a batch of pairs of equally long vectors the pooled transform
    is, pair by pair, the elementwise absolute value of the sum of the two
    vectors: the pair axis is gone and the batch axis kept. *)
Theorem pooled_transform_pairs (pairs : list (vec * vec)) :
  (forall a b, In (a, b) pairs -> length a = length b) ->
  pooled_transform (List.map (fun p => [fst p; snd p]) pairs) =
  List.map (fun p => zip_with (fun x y => fabs (fadd x y)) (fst p) (snd p)) pairs.
Proof.
  intros Hlen. unfold pooled_transform, tf_abs_2, reduce_sum_1.
  rewrite !List.map_map. apply List.map_ext_in. intros [a b] Hin. simpl.
  rewrite (tensor_add_zip_with fadd a b (Hlen a b Hin)).
  clear. revert b. induction a as [|x a IH]; intros [|y b]; simpl; try done.
  by rewrite IH.
Qed.

End TargetModel.

(** *** The transform on integer tensors *)

Definition Z_state (batch : list (list (list Z))) :
    paired_state (F := Z) (Other := unit) :=
  {| features := batch; sequence_features := [batch]; context := None;
     other_keys := tt |}.

Example pooled_transform_pair :
  pooled_transform Z.add Z.abs [[[1; -5]; [-3; 2]]]%Z = [[2; 3]]%Z.
Proof. reflexivity. Qed.

Lemma comparison_transform_symmetric_witness :
  let st := Z_state [[[1; -5]; [-3; 2]]]%Z in
  comparison_transform Z.add Z.abs (swap_documents st) =
    comparison_transform Z.add Z.abs st /\
  _target_model Z.add Z.abs features (swap_documents st) =
    _target_model Z.add Z.abs features st /\
  (forall a b : vec (F := Z),
      pooled_transform Z.add Z.abs [[a; b]] = pooled_transform Z.add Z.abs [[b; a]]) /\
  (forall a b : mat (F := Z),
      sequence_transform Z.add Z.abs [[a; b]] =
      sequence_transform Z.add Z.abs [[b; a]]).
Proof.
  intros st.
  apply (comparison_transform_symmetric Z.add Z.abs Z.add_comm features st).
Defined.

Lemma pooled_transform_pairs_witness :
  pooled_transform Z.add Z.abs
    (List.map (fun p => [fst p; snd p]) [([1; -5], [-3; 2])]%Z) =
  List.map (fun p => zip_with (fun x y => Z.abs (x + y)) (fst p) (snd p))
    [([1; -5], [-3; 2])]%Z.
Proof.
  apply (pooled_transform_pairs Z.add Z.abs [([1; -5], [-3; 2])]%Z).
  intros a b [[= <- <-]|[]]. reflexivity.
Defined.

End ComparisonOrdinalRegressor.

(** ** Method resolution for [predict_proba]

    [ComparisonOrdinalRegressor] derives from [OrdinalRegressor], which
    derives from [BaseModel]; an attribute is taken from the first class of
    the resolution order whose body defines it. *)

Module MethodResolution.

Inductive class : Type :=
| OrdinalRegressor_class
| ComparisonOrdinalRegressor_class.

(** The resolution order of each class, up to [BaseModel] (excluded). *)
Definition mro (c : class) : list class :=
  match c with
  | OrdinalRegressor_class => [OrdinalRegressor_class]
  | ComparisonOrdinalRegressor_class =>
      [ComparisonOrdinalRegressor_class; OrdinalRegressor_class]
  end.

Section Call.
Context {X Context R : Type}.

(** [BaseModel.predict_proba], reached only when no class above defines
    the method. *)
Variable base_model_predict_proba : X -> option Context -> result R.

(** The definition of [predict_proba] in the body of each class, if any:
    [ComparisonOrdinalRegressor] defines [predict], [_get_input_pipeline]
    and [_target_model] only. *)
Definition predict_proba_in (c : class) :
    option (X -> option Context -> result R) :=
  match c with
  | OrdinalRegressor_class => Some OrdinalRegressor.predict_proba
  | ComparisonOrdinalRegressor_class => None
  end.

Fixpoint lookup (order : list class) : X -> option Context -> result R :=
  match order with
  | [] => base_model_predict_proba
  | c :: rest =>
      match predict_proba_in c with
      | Some f => f
      | None => lookup rest
      end
  end.

(** [model.predict_proba(X, context)] on an instance of class [c]. *)
Definition call_predict_proba (c : class) (x : X) (context : option Context) :
    result R :=
  lookup (mro c) x context.

(** C6.  On the ordinal head and on its comparison subclass alike, and
    whatever the input, [predict_proba] raises the [AttributeError] that
    names the unsupported operation; it never returns a value. *)
Theorem predict_proba_always_raises
    (c : class) (x : X) (context : option Context) :
  call_predict_proba c x context =
    Raise (AttributeError "`Regressor` model does not support `predict_proba`.") /\
  ~ returns (call_predict_proba c x context).
Proof.
  assert (H : call_predict_proba c x context =
    Raise (AttributeError "`Regressor` model does not support `predict_proba`."))
    by (by destruct c).
  split; [exact H|]. rewrite H. intros [v Hv]. discriminate Hv.
Qed.

End Call.

End MethodResolution.


(** ** [huggingface_interface]: the featurizer adapter *)

Module HuggingFace.

(** *** Single-precision values

    The tensors of lines 59-65 are [float32].  Every value they hold is an
    integer (a [0]/[1] indicator, a position, or their product), so a
    float is represented by the integer it equals; [float32_of_Z] is the
    cast, rounding to a 24-bit significand, ties to even. *)
Definition float32_of_Z (z : Z) : Z :=
  let m := Z.abs z in
  if (m <? 2 ^ 24)%Z then z
  else
    let e := (Z.log2 m - 23)%Z in
    let q := Z.shiftr m e in
    let r := Z.land m (2 ^ e - 1) in
    let half := (2 ^ (e - 1))%Z in
    let q' :=
      if (r <? half)%Z then q
      else if (half <? r)%Z then (q + 1)%Z
      else if Z.even q then q else (q + 1)%Z in
    (Z.sgn z * Z.shiftl q' e)%Z.

(** [tf.range(tf.cast(seq_length, tf.float32), dtype=tf.float32)]: the
    position ramp [0, 1, ..., seq_length - 1] in single precision. *)
Definition tf_range_float32 (seq_length : nat) : list Z :=
  List.map (fun i => float32_of_Z (Z.of_nat i)) (seq 0 seq_length).

(** [tf.cast(tf.equal(X, encoder.delimiter_token), tf.int32)], one row. *)
Definition delimiters (delimiter_token : Z) (row : list Z) : list Z :=
  List.map (fun t => if (t =? delimiter_token)%Z then 1%Z else 0%Z) row.

(** [tf.cumsum(delimiters, exclusive=True, axis=1)], one row. *)
Fixpoint cumsum_exclusive (acc : Z) (row : list Z) : list Z :=
  match row with
  | [] => []
  | x :: rest => acc :: cumsum_exclusive (acc + x)%Z rest
  end.

(** [tf.shape(delimiters)[1]] of a two-dimensional tensor given by its rows. *)
Definition seq_length (X : list (list Z)) : nat :=
  match X with
  | [] => 0
  | row :: _ => length row
  end.

(** A list of rows is a tensor when all rows have the same length. *)
Definition rectangular (X : list (list Z)) : Prop :=
  forall row, In row X -> length row = seq_length X.

(** The indicator times the ramp, one row (the ramp is broadcast over the
    batch). *)
Definition masked_ramp (delimiter_token : Z) (ramp row : list Z) : list Z :=
  zip_with Z.mul
    (List.map float32_of_Z (delimiters delimiter_token row)) ramp.

(** The local [eos_idx] (lines 59-65): arg-max along axis 1 of the masked
    ramp.  (On an axis of length zero [tf.argmax] raises; the facts below
    are about sequences of non-zero length.) *)
Definition eos_idx_argmax (delimiter_token : Z) (X : list (list Z)) : list nat :=
  let ramp := tf_range_float32 (seq_length X) in
  List.map (fun row => argmax (masked_ramp delimiter_token ramp row)) X.

(** Position of the first and of the last delimiter token of a row. *)
Fixpoint first_delimiter (delimiter_token : Z) (row : list Z) : option nat :=
  match row with
  | [] => None
  | t :: rest =>
      if (t =? delimiter_token)%Z then Some 0
      else option_map S (first_delimiter delimiter_token rest)
  end.

Fixpoint last_delimiter (delimiter_token : Z) (row : list Z) : option nat :=
  match row with
  | [] => None
  | t :: rest =>
      match last_delimiter delimiter_token rest with
      | Some k => Some (S k)
      | None => if (t =? delimiter_token)%Z then Some 0 else None
      end
  end.

Example eos_idx_two_delimiters :
  eos_idx_argmax 9 [[5; 9; 7; 9]; [9; 1; 1; 1]; [1; 1; 1; 1]]%Z = [3; 0; 0].
Proof. reflexivity. Qed.

Example float32_of_Z_rounds :
  float32_of_Z (2 ^ 24 + 1) = (2 ^ 24)%Z /\
  float32_of_Z (2 ^ 24 + 3) = (2 ^ 24 + 4)%Z /\
  float32_of_Z (2 ^ 24 - 1) = (2 ^ 24 - 1)%Z.
Proof. repeat split. Qed.

(** *** The arg-max lands on the last delimiter *)

Lemma float32_of_Z_exact (z : Z) :
  (0 <= z < 2 ^ 24)%Z -> float32_of_Z z = z.
Proof.
  intros Hz. unfold float32_of_Z.
  rewrite Z.abs_eq by lia.
  destruct (z <? 2 ^ 24)%Z eqn:H; [done|]. apply Z.ltb_ge in H. lia.
Qed.

Lemma masked_ramp_from (d : Z) (row : list Z) (s j : nat) :
  j < length row ->
  (Z.of_nat (s + length row) <= 2 ^ 24)%Z ->
  nth j (zip_with Z.mul (List.map float32_of_Z (delimiters d row))
           (List.map (fun i => float32_of_Z (Z.of_nat i)) (seq s (length row)))) 0%Z =
  if (nth j row 0 =? d)%Z then Z.of_nat (s + j) else 0%Z.
Proof.
  revert s j. induction row as [|t row IH]; intros s j Hj Hs; simpl in Hj; [lia|].
  simpl. destruct j as [|j].
  - rewrite (float32_of_Z_exact (Z.of_nat s)) by (simpl in Hs; lia).
    rewrite Nat.add_0_r.
    destruct (t =? d)%Z; rewrite float32_of_Z_exact by lia; lia.
  - rewrite (IH (S s) j) by (simpl in Hs; lia).
    by replace (S s + j) with (s + S j) by lia.
Qed.

Lemma masked_ramp_nth (d : Z) (row : list Z) (j : nat) :
  j < length row ->
  (Z.of_nat (length row) <= 2 ^ 24)%Z ->
  nth j (masked_ramp d (tf_range_float32 (length row)) row) 0%Z =
  if (nth j row 0 =? d)%Z then Z.of_nat j else 0%Z.
Proof.
  intros Hj Hn. unfold masked_ramp, tf_range_float32.
  by rewrite (masked_ramp_from d row 0 j Hj Hn).
Qed.

Lemma masked_ramp_length (d : Z) (row : list Z) :
  length (masked_ramp d (tf_range_float32 (length row)) row) = length row.
Proof.
  unfold masked_ramp, tf_range_float32, delimiters.
  rewrite length_zip_with, !length_map, length_seq. lia.
Qed.

Lemma last_delimiter_is_last (d : Z) (row : list Z) (k : nat) :
  last_delimiter d row = Some k ->
  k < length row /\ nth k row 0%Z = d /\
  forall j, k < j -> j < length row -> nth j row 0%Z <> d.
Proof.
  revert k. induction row as [|t row IH]; intros k H; simpl in H; [done|].
  destruct (last_delimiter d row) as [k'|] eqn:Hl.
  - injection H as <-. destruct (IH k' eq_refl) as (H1 & H2 & H3).
    simpl. split; [lia|]. split; [done|].
    intros [|j] Hj Hlen; [lia|]. apply H3; lia.
  - destruct (t =? d)%Z eqn:Ht; [|done]. injection H as <-.
    apply Z.eqb_eq in Ht. simpl. split; [lia|]. split; [done|].
    intros [|j] Hj Hlen; [lia|]. simpl. intros Hd.
    clear IH Hj. revert j Hlen Hd Hl. clear.
    induction row as [|u row IH]; intros j Hlen Hd Hl; simpl in *; [lia|].
    destruct (last_delimiter d row) eqn:Hr; [done|].
    destruct j as [|j].
    + subst u. by rewrite Z.eqb_refl in Hl.
    + apply (IH j); [lia|done|done].
Qed.

Lemma argmax_masked_ramp (d : Z) (row : list Z) (k : nat) :
  (Z.of_nat (length row) <= 2 ^ 24)%Z ->
  last_delimiter d row = Some k ->
  argmax (masked_ramp d (tf_range_float32 (length row)) row) = k.
Proof.
  intros Hn Hk. apply last_delimiter_is_last in Hk as (Hlt & Hd & Hlast).
  set (m := masked_ramp d (tf_range_float32 (length row)) row).
  assert (Hlen : length m = length row) by apply masked_ramp_length.
  assert (Hnth : forall j, j < length row ->
            nth j m 0%Z = if (nth j row 0 =? d)%Z then Z.of_nat j else 0%Z).
  { intros j Hj. by apply masked_ramp_nth. }
  assert (Hk : nth k m 0%Z = Z.of_nat k).
  { rewrite Hnth by done. rewrite Hd. by rewrite Z.eqb_refl. }
  assert (Hle : forall j, j < length row -> j <> k ->
            (nth j m 0 <= Z.of_nat k)%Z /\ (0 < k -> (nth j m 0 < Z.of_nat k)%Z)).
  { intros j Hj Hjk. rewrite Hnth by done.
    destruct (nth j row 0 =? d)%Z eqn:Hjd; [|lia].
    apply Z.eqb_eq in Hjd.
    destruct (decide (k < j)) as [Hgt|Hgt]; [by destruct (Hlast j Hgt Hj)|lia]. }
  destruct (decide (k = 0)) as [->|Hpos].
  - destruct (argmax m) as [|a] eqn:Ha; [done|].
    pose proof (argmax_first m 0 0%Z ltac:(lia)) as Hf.
    assert (m <> []) as Hne by (intros E; rewrite E in Hlen; simpl in Hlen; lia).
    pose proof (argmax_lt_length m Hne) as Hb.
    rewrite Ha in Hf, Hb.
    destruct (Hle (S a) ltac:(lia) ltac:(lia)) as [Hle' _]. lia.
  - apply (argmax_unique m k 0%Z); [lia|].
    intros i Hi Hik. rewrite Hk.
    apply (Hle i); [lia|done|lia].
Qed.

(** *** [HuggingFaceEncoder] *)

(** The attributes of the wrapped tokenizer the shim reads; an absent
    special token is [None]. *)
Record hf_tokenizer : Type := Tokenizer {
  cls_token_id : option Z;
  sep_token_id : option Z;
  eos_token_id : option Z;
  mask_token_id : option Z;
  unk_token_id : option Z;
  tokenizer_vocab_size : Z
}.

(** Python's [a or b] on optional integers: [None] and [0] are falsy. *)
Definition py_or (a b : option Z) : option Z :=
  match a with
  | Some z => if (z =? 0)%Z then b else a
  | None => b
  end.

Record HuggingFaceEncoder : Type := Encoder {
  tokenizer : hf_tokenizer;
  start_token : option Z;
  delimiter_token : option Z;
  mask_token : option Z;
  end_token : option Z;
  UNK_IDX : option Z;
  initialized : bool
}.

(** [HuggingFaceEncoder.__init__] for the tokenizer instance [tok]. *)
Definition HuggingFaceEncoder_init (tok : hf_tokenizer) : HuggingFaceEncoder :=
  let delimiter := py_or (sep_token_id tok) (eos_token_id tok) in
  {| tokenizer := tok;
     start_token := cls_token_id tok;
     delimiter_token := delimiter;
     mask_token := mask_token_id tok;
     end_token := py_or (eos_token_id tok) delimiter;
     UNK_IDX := unk_token_id tok;
     initialized := true |}.

(** The values a property getter can hand back. *)
Inductive py_value : Type :=
| PyNone
| PyInt (z : Z).

(** A function body as a list of statements: an expression statement
    evaluates its expression and drops the value, [return] ends the call
    with it; a body that runs off its end returns [None]. *)
Inductive stmt : Type :=
| ExprStmt (value : py_value)
| ReturnStmt (value : py_value).

Fixpoint run_body (body : list stmt) : py_value :=
  match body with
  | [] => PyNone
  | ExprStmt _ :: rest => run_body rest
  | ReturnStmt v :: _ => v
  end.

(** The [vocab_size] property (lines 128-130): its body is the single
    expression statement [self.tokenizer.vocab_size]. *)
Definition vocab_size (self : HuggingFaceEncoder) : py_value :=
  run_body [ExprStmt (PyInt (tokenizer_vocab_size (tokenizer self)))].

(** *** [finetune_featurizer] *)

Section Featurizer.
Context {Tensor Embeddings Weights : Type}.

(** [finetune.util.shapes.lengths_from_eos_idx], defined outside this
    module. *)
Variable lengths_from_eos_idx : list nat -> nat -> list nat.

(** [sequence_out[:, 0, :]]: the first-token representation. *)
Variable first_token : Tensor -> Tensor.

(** What [layer.__call__] can denote: the layer's own call, or that call
    wrapped by [recompute_grad]. *)
Inductive callable : Type :=
| LayerCall (index : nat)
| recompute_grad (fn : callable) (train_vars : list Weights).

Record encoder_layer : Type := EncoderLayer {
  layer_call : callable;
  trainable_weights : list Weights
}.

(** The two statements at stake on line 75: the comparison the source has
    ([==], whose value is dropped) and the assignment ([=]). *)
Inductive layer_stmt : Type :=
| Compare (lhs rhs : callable)
| AssignCall (rhs : callable).

Definition exec_layer_stmt (layer : encoder_layer) (s : layer_stmt) : encoder_layer :=
  match s with
  | Compare _ _ => layer
  | AssignCall rhs =>
      {| layer_call := rhs; trainable_weights := trainable_weights layer |}
  end.

(** Lines 75-77 as written. *)
Definition line_75 (layer : encoder_layer) : layer_stmt :=
  Compare (layer_call layer)
    (recompute_grad (layer_call layer) (trainable_weights layer)).

(** A keyword argument value of the wrapped model's call. *)
Inductive kwarg : Type :=
| KwTensor (t : list (list Z))
| KwNone
| KwBool (b : bool).

(** The wrapped model: its encoder layers, the argument names of its call
    signature, its embedding table and its forward pass, which runs the
    layers as it finds them and returns a tuple of tensors. *)
Record hf_model : Type := HfModel {
  encoder_layers : list encoder_layer;
  call_args : list string;
  word_embeddings : Embeddings;
  forward : list encoder_layer -> list (list Z) -> list (string * kwarg) -> list Tensor
}.

Record featurizer_config : Type := Config { low_memory_mode : bool }.

Record output_state : Type := OutputState {
  embed_weights : Embeddings;
  features : Tensor;
  sequence_features : Tensor;
  lengths : list nat;
  eos_idx : list nat
}.

(** [tf.sequence_mask(lengths, maxlen=seq_length, dtype=tf.float32)] *)
Definition sequence_mask (lens : list nat) (maxlen : nat) : list (list Z) :=
  List.map (fun len =>
              List.map (fun j => if j <? len then 1%Z else 0%Z) (seq 0 maxlen))
    lens.

(** Lines 73-77: the loop over the encoder layers. *)
Definition low_memory_loop (config : featurizer_config) (train : bool)
    (layers : list encoder_layer) : list encoder_layer :=
  if low_memory_mode config && train
  then List.map (fun layer => exec_layer_stmt layer (line_75 layer)) layers
  else layers.

(** [finetune_featurizer] on a token tensor already reshaped to two
    dimensions, with the freshly built wrapped model [model].  Returns the
    output state and the encoder layers as the call leaves them. *)
Definition finetune_featurizer (X : list (list Z)) (encoder : HuggingFaceEncoder)
    (config : featurizer_config) (train : bool) (model : hf_model) :
    result (output_state * list encoder_layer) :=
  match delimiter_token encoder with
  | None => Raise (ValueError "None values not supported.")
  | Some delimiter =>
      let token_type_ids :=
        List.map (fun row => cumsum_exclusive 0 (delimiters delimiter row)) X in
      let n := seq_length X in
      let eos := eos_idx_argmax delimiter X in
      let lens := lengths_from_eos_idx eos n in
      let mask := sequence_mask lens n in
      let layers := low_memory_loop config train (encoder_layers model) in
      let kwargs :=
        List.filter (fun kv => existsb (String.eqb (fst kv)) (call_args model))
          [("attention_mask"%string, KwTensor mask);
           ("token_type_ids"%string, KwTensor token_type_ids);
           ("inputs_embeds"%string, KwNone);
           ("training"%string, KwBool train)] in
      match forward model layers X kwargs with
      | [] => Raise (IndexError "tuple index out of range")
      | [sequence_out] =>
          Ok ({| embed_weights := word_embeddings model;
                 features := first_token sequence_out;
                 sequence_features := sequence_out;
                 lengths := lens;
                 eos_idx := eos |}, layers)
      | sequence_out :: pooled_out :: _ =>
          Ok ({| embed_weights := word_embeddings model;
                 features := pooled_out;
                 sequence_features := sequence_out;
                 lengths := lens;
                 eos_idx := eos |}, layers)
      end
  end.

Lemma finetune_featurizer_eos_idx X encoder config train model st layers :
  finetune_featurizer X encoder config train model = Ok (st, layers) ->
  exists delimiter,
    delimiter_token encoder = Some delimiter /\
    eos_idx st = eos_idx_argmax delimiter X /\
    layers = low_memory_loop config train (encoder_layers model).
Proof.
  unfold finetune_featurizer. intros H.
  destruct (delimiter_token encoder) as [d|]; [|done].
  exists d. split; [done|].
  destruct (forward _ _ _ _) as [|s [|p rest]]; [done| |];
    injection H as <- <-; done.
Qed.

Lemma last_delimiter_exists (d : Z) (row : list Z) :
  In d row -> exists k, last_delimiter d row = Some k.
Proof.
  induction row as [|t row IH]; intros Hin; simpl in *; [done|].
  destruct (last_delimiter d row) as [k|]; [by eexists|].
  destruct Hin as [->|Hin]; [|by destruct (IH Hin)].
  rewrite Z.eqb_refl. by eexists.
Qed.

(** C1 (as amended).  For a batch whose sequences are at most [2^24]
    tokens long (where single precision holds every position exactly),
    the [eos_idx] entry of the returned output state is, for each
    sequence that contains a delimiter token, the position of the last
    delimiter token of that sequence. *)
Theorem eos_idx_is_last_delimiter
    (X : list (list Z)) (encoder : HuggingFaceEncoder)
    (config : featurizer_config) (train : bool) (model : hf_model)
    (st : output_state) (layers : list encoder_layer)
    (d : Z) (i : nat) (row : list Z) :
  finetune_featurizer X encoder config train model = Ok (st, layers) ->
  delimiter_token encoder = Some d ->
  rectangular X ->
  (Z.of_nat (seq_length X) <= 2 ^ 24)%Z ->
  X !! i = Some row ->
  In d row ->
  exists k, last_delimiter d row = Some k /\ eos_idx st !! i = Some k.
Proof.
  intros Hrun Hd Hrect Hlen Hrow Hin.
  apply finetune_featurizer_eos_idx in Hrun as (d' & Hd' & -> & _).
  assert (d' = d) as -> by congruence.
  destruct (last_delimiter_exists d row Hin) as [k Hk].
  exists k. split; [done|].
  unfold eos_idx_argmax.
  assert (Hl : length row = seq_length X).
  { apply Hrect. apply list_elem_of_In. by eapply list_elem_of_lookup_2. }
  rewrite <- Hl in Hlen |- *.
  change (List.map ?f X) with (f <$> X).
  rewrite list_lookup_fmap, Hrow. simpl.
  by rewrite (argmax_masked_ramp d row k Hlen Hk).
Qed.

(** C5.  The loop over the encoder layers leaves every layer as it was,
    whatever the configuration: line 75 compares [layer.__call__] with the
    wrapper and drops the result, so no call is replaced. *)
Theorem low_memory_loop_replaces_nothing
    (config : featurizer_config) (train : bool) (layers : list encoder_layer) :
  low_memory_loop config train layers = layers.
Proof.
  unfold low_memory_loop. destruct (low_memory_mode config && train); [|done].
  induction layers as [|layer layers IH]; [done|].
  change (layer :: List.map (fun l => exec_layer_stmt l (line_75 l)) layers = layer :: layers).
  f_equal. exact IH.
Qed.

Lemma argmax_all_zero (l : list Z) :
  (forall x, In x l -> x = 0%Z) -> argmax l = 0.
Proof.
  intros Hz. destruct l as [|x r]; [done|]. simpl.
  assert (nth (argmax r) r x = 0%Z) as ->.
  { destruct (nth_in_or_default (argmax r) r x) as [Hin| ->].
    - apply Hz. by right.
    - apply Hz. by left. }
  rewrite (Hz x ltac:(by left)). done.
Qed.

Lemma masked_ramp_without_delimiter (d : Z) (ramp row : list Z) :
  ~ In d row -> forall x, In x (masked_ramp d ramp row) -> x = 0%Z.
Proof.
  unfold masked_ramp, delimiters. revert ramp.
  induction row as [|t row IH]; intros ramp Hd x Hx; simpl in Hx; [done|].
  destruct ramp as [|r ramp]; simpl in Hx; [done|].
  destruct (t =? d)%Z eqn:Ht.
  - apply Z.eqb_eq in Ht. destruct Hd. by left.
  - destruct Hx as [<-|Hx]; [done|].
    apply (IH ramp); [|done]. intros Hin. apply Hd. by right.
Qed.

Lemma masked_ramp_delimiter_first_only (d : Z) (n : nat) (row : list Z) :
  (forall t, In t (tl row) -> t <> d) ->
  forall x, In x (masked_ramp d (tf_range_float32 n) row) -> x = 0%Z.
Proof.
  intros Htl x Hx. destruct row as [|t rest]; [done|].
  destruct n as [|n]; [done|].
  unfold tf_range_float32 in Hx. cbn [seq List.map] in Hx.
  unfold masked_ramp in Hx. cbn [delimiters List.map zip_with] in Hx.
  destruct Hx as [<-|Hx].
  - change (float32_of_Z (Z.of_nat 0)) with 0%Z. lia.
  - apply (masked_ramp_without_delimiter d
             (List.map (fun i => float32_of_Z (Z.of_nat i)) (seq 1 n)) rest);
      [|exact Hx].
    intros Hin. by apply (Htl d).
Qed.

(** X11.  In a batch of non-empty sequences, a sequence that contains no
    delimiter token and a sequence whose only delimiter token is its first
    token both get the [eos_idx] entry 0. *)
Theorem eos_idx_zero_is_ambiguous
    (X : list (list Z)) (encoder : HuggingFaceEncoder)
    (config : featurizer_config) (train : bool) (model : hf_model)
    (st : output_state) (layers : list encoder_layer)
    (d : Z) (i : nat) (row : list Z) :
  finetune_featurizer X encoder config train model = Ok (st, layers) ->
  delimiter_token encoder = Some d ->
  rectangular X ->
  0 < seq_length X ->
  X !! i = Some row ->
  ~ In d row \/ (exists rest, row = d :: rest /\ ~ In d rest) ->
  eos_idx st !! i = Some 0.
Proof.
  intros Hrun Hd Hrect Hpos Hrow Hcase.
  apply finetune_featurizer_eos_idx in Hrun as (d' & Hd' & -> & _).
  assert (d' = d) as -> by congruence.
  unfold eos_idx_argmax.
  change (List.map ?f X) with (f <$> X).
  rewrite list_lookup_fmap, Hrow. simpl. f_equal.
  apply argmax_all_zero. apply masked_ramp_delimiter_first_only.
  intros t Ht ->. destruct Hcase as [Hno|(rest & -> & Hno)].
  - apply Hno. destruct row; [done|]. by right.
  - by apply Hno.
Qed.

(** X12.  [eos_idx] has one entry per sequence of the batch, and each
    entry is a position inside the sequence (below the sequence length,
    when that is not zero). *)
Theorem eos_idx_in_bounds
    (X : list (list Z)) (encoder : HuggingFaceEncoder)
    (config : featurizer_config) (train : bool) (model : hf_model)
    (st : output_state) (layers : list encoder_layer) :
  finetune_featurizer X encoder config train model = Ok (st, layers) ->
  rectangular X ->
  0 < seq_length X ->
  length (eos_idx st) = length X /\
  forall i k, eos_idx st !! i = Some k -> k < seq_length X.
Proof.
  intros Hrun Hrect Hpos.
  apply finetune_featurizer_eos_idx in Hrun as (d & _ & -> & _).
  unfold eos_idx_argmax. split; [by rewrite length_map|].
  intros i k Hk.
  change (List.map ?f X) with (f <$> X) in Hk.
  rewrite list_lookup_fmap in Hk.
  destruct (X !! i) as [row|] eqn:Hrow; simpl in Hk; [|done].
  injection Hk as <-.
  assert (Hl : length row = seq_length X).
  { apply Hrect. apply list_elem_of_In. by eapply list_elem_of_lookup_2. }
  rewrite <- Hl.
  rewrite <- (masked_ramp_length d row) at 2.
  apply argmax_lt_length.
  intros Hnil. pose proof (masked_ramp_length d row) as Hm.
  rewrite Hnil in Hm. simpl in Hm. lia.
Qed.

(** The wrapped model [model] with another forward pass. *)
Definition with_forward (model : hf_model)
    (forward' : list encoder_layer -> list (list Z) -> list (string * kwarg) -> list Tensor) :
    hf_model :=
  {| encoder_layers := encoder_layers model;
     call_args := call_args model;
     word_embeddings := word_embeddings model;
     forward := forward' |}.

(** X24.  The wrapped model is only ever called with keyword arguments
    its call signature names: two forward passes that agree on every call
    whose keywords are all among [call_args] give the same featurizer
    result. *)
Theorem finetune_featurizer_passes_accepted_kwargs
    (X : list (list Z)) (encoder : HuggingFaceEncoder)
    (config : featurizer_config) (train : bool) (model : hf_model)
    (forward' : list encoder_layer -> list (list Z) -> list (string * kwarg) -> list Tensor) :
  (forall layers kwargs,
      (forall kv, In kv kwargs -> In (fst kv) (call_args model)) ->
      forward model layers X kwargs = forward' layers X kwargs) ->
  finetune_featurizer X encoder config train (with_forward model forward') =
  finetune_featurizer X encoder config train model.
Proof.
  intros Hagree. unfold finetune_featurizer, with_forward.
  cbn [call_args encoder_layers word_embeddings forward].
  destruct (delimiter_token encoder) as [d|]; [|done].
  rewrite <- Hagree; [done|].
  intros kv Hkv. apply filter_In in Hkv as [_ Hkv].
  apply existsb_exists in Hkv as (a & Ha & Heq).
  apply String.eqb_eq in Heq. by rewrite Heq.
Qed.

End Featurizer.

(** *** The adapter on a concrete batch *)

(** A wrapped model with one encoder layer whose forward pass returns a
    one-element tuple. *)
Definition one_layer_model : hf_model (Tensor := unit) (Embeddings := unit) (Weights := nat) :=
  {| encoder_layers := [EncoderLayer (LayerCall 0) [7]];
     call_args := ["attention_mask"; "training"]%string;
     word_embeddings := tt;
     forward := fun _ _ _ => [tt] |}.

Definition sep_encoder : HuggingFaceEncoder :=
  HuggingFaceEncoder_init
    {| cls_token_id := Some 1%Z; sep_token_id := Some 9%Z; eos_token_id := None;
       mask_token_id := Some 4%Z; unk_token_id := Some 3%Z;
       tokenizer_vocab_size := 30522%Z |}.

Definition two_segment_batch : list (list Z) := [[5; 9; 7; 9]]%Z.

Definition run_two_segment_batch :
    result (output_state * list encoder_layer) :=
  finetune_featurizer (fun eos _ => List.map S eos) (fun t => t)
    two_segment_batch sep_encoder (Config true) true one_layer_model.

Example run_two_segment_batch_eos_idx :
  exists st layers,
    run_two_segment_batch = Ok (st, layers) /\ eos_idx st = [3] /\
    layers = [EncoderLayer (LayerCall 0) [7]].
Proof. do 2 eexists. repeat split. Qed.

(** [eos_idx] is not the first delimiter on [two_segment_batch]: the
    first delimiter of its row is at position 1, [eos_idx] holds 3. *)
Lemma eos_idx_is_not_first_delimiter :
  ~ (forall (X : list (list Z)) (encoder : HuggingFaceEncoder)
            (config : featurizer_config) (train : bool)
            (model : hf_model (Tensor := unit) (Embeddings := unit) (Weights := nat))
            (st : output_state) (layers : list encoder_layer)
            (d : Z) (i : nat) (row : list Z),
        finetune_featurizer (fun eos _ => List.map S eos) (fun t => t)
          X encoder config train model = Ok (st, layers) ->
        delimiter_token encoder = Some d ->
        rectangular X ->
        (Z.of_nat (seq_length X) <= 2 ^ 24)%Z ->
        X !! i = Some row ->
        In d row ->
        eos_idx st !! i = first_delimiter d row).
Proof.
  intros H.
  specialize (H two_segment_batch sep_encoder (Config true) true one_layer_model
                _ _ 9%Z 0 [5; 9; 7; 9]%Z eq_refl eq_refl).
  assert (Hrect : rectangular two_segment_batch).
  { intros row [<-|[]]. reflexivity. }
  specialize (H Hrect ltac:(vm_compute; discriminate) eq_refl
                ltac:(simpl; tauto)).
  vm_compute in H. discriminate H.
Qed.

Lemma eos_idx_is_last_delimiter_witness :
  exists k,
    last_delimiter 9 [5; 9; 7; 9]%Z = Some k /\
    [3] !! 0 = Some k.
Proof.
  apply (eos_idx_is_last_delimiter (fun eos _ => List.map S eos) (fun t => t)
           two_segment_batch sep_encoder (Config true) true one_layer_model
           _ _ 9%Z 0 [5; 9; 7; 9]%Z eq_refl eq_refl).
  - intros row [<-|[]]. reflexivity.
  - vm_compute. discriminate.
  - reflexivity.
  - simpl. tauto.
Defined.

(** Low-memory training on [one_layer_model]: the layer keeps its own
    call, where the assignment would have installed the wrapper. *)
Example low_memory_loop_one_layer :
  low_memory_loop (Config true) true (encoder_layers one_layer_model) =
    [EncoderLayer (LayerCall 0) [7]] /\
  List.map (fun layer =>
              exec_layer_stmt layer
                (AssignCall (recompute_grad (layer_call layer)
                               (trainable_weights layer))))
    (encoder_layers one_layer_model) =
    [EncoderLayer (recompute_grad (LayerCall 0) [7]) [7]].
Proof. split; reflexivity. Qed.

Lemma eos_idx_zero_is_ambiguous_witness :
  [0; 0] !! 0 = Some 0 /\ [0; 0] !! 1 = Some 0.
Proof.
  assert (Hrect : rectangular [[5; 6; 7; 8]; [9; 6; 7; 8]]%Z).
  { intros row [<-|[<-|[]]]; reflexivity. }
  split.
  - apply (eos_idx_zero_is_ambiguous (fun eos _ => List.map S eos) (fun t => t)
             [[5; 6; 7; 8]; [9; 6; 7; 8]]%Z sep_encoder (Config false) false
             one_layer_model _ _ 9%Z 0 [5; 6; 7; 8]%Z
             eq_refl eq_refl Hrect ltac:(simpl; lia) eq_refl).
    left. simpl. intros [H|[H|[H|[H|[]]]]]; discriminate H.
  - apply (eos_idx_zero_is_ambiguous (fun eos _ => List.map S eos) (fun t => t)
             [[5; 6; 7; 8]; [9; 6; 7; 8]]%Z sep_encoder (Config false) false
             one_layer_model _ _ 9%Z 1 [9; 6; 7; 8]%Z
             eq_refl eq_refl Hrect ltac:(simpl; lia) eq_refl).
    right. exists [6; 7; 8]%Z. split; [reflexivity|].
    simpl. intros [H|[H|[H|[]]]]; discriminate H.
Defined.

Lemma eos_idx_in_bounds_witness :
  length [3] = length two_segment_batch /\
  forall i k, [3] !! i = Some k -> k < seq_length two_segment_batch.
Proof.
  apply (eos_idx_in_bounds (fun eos _ => List.map S eos) (fun t => t)
           two_segment_batch sep_encoder (Config true) true one_layer_model
           _ _ eq_refl).
  - intros row [<-|[]]. reflexivity.
  - simpl. lia.
Defined.

Lemma finetune_featurizer_passes_accepted_kwargs_witness :
  finetune_featurizer (fun eos _ => List.map S eos) (fun t => t)
    two_segment_batch sep_encoder (Config true) true
    (with_forward one_layer_model
       (fun _ _ kwargs =>
          if existsb (fun kv => String.eqb (fst kv) "token_type_ids") kwargs
          then [] else [tt])) =
  finetune_featurizer (fun eos _ => List.map S eos) (fun t => t)
    two_segment_batch sep_encoder (Config true) true one_layer_model.
Proof.
  apply (finetune_featurizer_passes_accepted_kwargs
           (fun eos _ => List.map S eos) (fun t => t)
           two_segment_batch sep_encoder (Config true) true one_layer_model).
  intros layers kwargs Hk. simpl.
  destruct (existsb _ kwargs) eqn:E; [|done].
  apply existsb_exists in E as (kv & Hin & Heq).
  apply String.eqb_eq in Heq. specialize (Hk kv Hin). rewrite Heq in Hk.
  simpl in Hk. destruct Hk as [H|[H|[]]]; discriminate H.
Defined.

(** *** Segment ids *)

Lemma cumsum_exclusive_delimiters (d : Z) (row : list Z) (acc : Z) (j : nat) :
  j < length row ->
  nth j (cumsum_exclusive acc (delimiters d row)) 0%Z =
  (acc + occurrences (firstn j row) d)%Z.
Proof.
  unfold occurrences.
  revert acc j. induction row as [|t row IH]; intros acc j Hj; simpl in Hj; [lia|].
  destruct j as [|j]; simpl; [lia|].
  rewrite IH by lia.
  destruct (t =? d)%Z eqn:Ht, (Z.eq_dec t d) as [He|He]; lia.
Qed.

Lemma cumsum_exclusive_length (acc : Z) (l : list Z) :
  length (cumsum_exclusive acc l) = length l.
Proof.
  revert acc. induction l as [|x l IH]; intros acc; simpl; [done|]. by rewrite IH.
Qed.

(** X13.  The segment id computed for a position (lines 53-55) is the
    number of delimiter tokens strictly before that position, and there is
    one id per token. *)
Theorem token_type_ids_count_delimiters (d : Z) (row : list Z) (j : nat) :
  j < length row ->
  length (cumsum_exclusive 0 (delimiters d row)) = length row /\
  nth j (cumsum_exclusive 0 (delimiters d row)) 0%Z =
    occurrences (firstn j row) d.
Proof.
  intros Hj. split.
  - rewrite cumsum_exclusive_length. unfold delimiters. by rewrite length_map.
  - by rewrite cumsum_exclusive_delimiters.
Qed.

Lemma token_type_ids_count_delimiters_witness :
  length (cumsum_exclusive 0 (delimiters 9 [5; 9; 7; 9; 4]%Z)) = 5 /\
  nth 4 (cumsum_exclusive 0 (delimiters 9 [5; 9; 7; 9; 4]%Z)) 0%Z =
    occurrences (firstn 4 [5; 9; 7; 9; 4]%Z) 9.
Proof.
  apply (token_type_ids_count_delimiters 9 [5; 9; 7; 9; 4]%Z 4). simpl. lia.
Defined.

(** *** The special tokens of the encoder *)

(** X14.  [__init__] takes the separator id as delimiter unless it is
    absent or zero, in which case the end-of-sequence id is taken; without
    a separator the delimiter and end tokens are both the end-of-sequence
    id; and the end token is missing exactly when the delimiter is. *)
Theorem HuggingFaceEncoder_init_special_tokens (tok : hf_tokenizer) :
  let self := HuggingFaceEncoder_init tok in
  (forall z, sep_token_id tok = Some z -> z <> 0%Z ->
             delimiter_token self = Some z) /\
  (sep_token_id tok = None \/ sep_token_id tok = Some 0%Z ->
   delimiter_token self = eos_token_id tok) /\
  (sep_token_id tok = None ->
   end_token self = eos_token_id tok) /\
  (delimiter_token self = None <-> end_token self = None).
Proof.
  destruct tok as [cls sep eos msk unk vs]. simpl.
  repeat split.
  - intros z -> Hz. simpl. destruct (z =? 0)%Z eqn:E; [|done].
    apply Z.eqb_eq in E. done.
  - by intros [->| ->].
  - intros ->. simpl. destruct eos as [z|]; simpl; [|done].
    by destruct (z =? 0)%Z.
  - destruct sep as [z|], eos as [y|]; simpl;
      try destruct (z =? 0)%Z; try destruct (y =? 0)%Z; done.
  - destruct sep as [z|], eos as [y|]; simpl;
      try destruct (z =? 0)%Z eqn:Ez; try destruct (y =? 0)%Z eqn:Ey; simpl;
      rewrite ?Ez, ?Ey; done.
Qed.

(** *** [_encode] *)

(** What the wrapped tokenizer's [encode] returns for one text. *)
Record encoding : Type := Encoding {
  enc_tokens : list string;
  enc_ids : list Z;
  enc_offsets : list (nat * nat)
}.

(** The [EncodedOutput] fields [_encode] fills in. *)
Record EncodedOutput : Type := MkEncodedOutput {
  token_ids : list (list Z);
  tokens : list (list string);
  token_ends : list (list nat);
  token_starts : list (list nat)
}.

Section Encode.
(** [self.tokenizer._tokenizer.encode(text, add_special_tokens=False)] *)
Variable tokenizer_encode : hf_tokenizer -> string -> encoding.

(** The inner loop (lines 143-147): the two lists grow by one element per
    offset pair. *)
Definition split_offsets (offsets : list (nat * nat)) : list nat * list nat :=
  fold_left
    (fun acc offset => (fst acc ++ [fst offset], snd acc ++ [snd offset]))
    offsets ([], []).

(** The four batch lists of the outer loop. *)
Record encode_locals : Type := EncodeLocals {
  batch_tokens : list (list string);
  batch_token_idxs : list (list Z);
  batch_char_ends : list (list nat);
  batch_char_starts : list (list nat)
}.

(** One iteration of the outer loop (lines 137-150). *)
Definition encode_text (self : HuggingFaceEncoder) (acc : encode_locals)
    (text : string) : encode_locals :=
  let encoded := tokenizer_encode (tokenizer self) text in
  let starts_ends := split_offsets (enc_offsets encoded) in
  {| batch_tokens := batch_tokens acc ++ [enc_tokens encoded];
     batch_token_idxs := batch_token_idxs acc ++ [enc_ids encoded];
     batch_char_ends := batch_char_ends acc ++ [snd starts_ends];
     batch_char_starts := batch_char_starts acc ++ [fst starts_ends] |}.

(** [HuggingFaceEncoder._encode] *)
Definition _encode (self : HuggingFaceEncoder) (texts : list string) : EncodedOutput :=
  let acc := fold_left (encode_text self) texts
               {| batch_tokens := []; batch_token_idxs := [];
                  batch_char_ends := []; batch_char_starts := [] |} in
  {| token_ids := batch_token_idxs acc;
     tokens := batch_tokens acc;
     token_ends := batch_char_ends acc;
     token_starts := batch_char_starts acc |}.

Lemma split_offsets_from (offsets : list (nat * nat)) (starts ends : list nat) :
  fold_left
    (fun acc offset => (fst acc ++ [fst offset], snd acc ++ [snd offset]))
    offsets (starts, ends) =
  (starts ++ offsets.*1, ends ++ offsets.*2).
Proof.
  revert starts ends. induction offsets as [|[a b] offsets IH]; intros starts ends; simpl.
  - by rewrite !app_nil_r.
  - rewrite IH. by rewrite <- !app_assoc.
Qed.

Lemma fold_encode_text self texts acc :
  fold_left (encode_text self) texts acc =
  {| batch_tokens :=
       batch_tokens acc ++
       ((fun t => enc_tokens (tokenizer_encode (tokenizer self) t)) <$> texts);
     batch_token_idxs :=
       batch_token_idxs acc ++
       ((fun t => enc_ids (tokenizer_encode (tokenizer self) t)) <$> texts);
     batch_char_ends :=
       batch_char_ends acc ++
       ((fun t => (enc_offsets (tokenizer_encode (tokenizer self) t)).*2) <$> texts);
     batch_char_starts :=
       batch_char_starts acc ++
       ((fun t => (enc_offsets (tokenizer_encode (tokenizer self) t)).*1) <$> texts) |}.
Proof.
  revert acc. induction texts as [|t texts IH]; intros acc; simpl.
  - destruct acc. simpl. by rewrite !app_nil_r.
  - rewrite IH. unfold encode_text, split_offsets. simpl.
    rewrite split_offsets_from. simpl. by rewrite <- !app_assoc.
Qed.

(** X15.  [_encode] keeps its four result lists parallel to the input
    texts: each has one entry per text, the entry of a text holds the ids
    and tokens the tokenizer gave for it, and its token starts and ends,
    paired up again, are the tokenizer's offsets. *)
Theorem _encode_parallel (self : HuggingFaceEncoder) (texts : list string) :
  let out := _encode self texts in
  length (token_ids out) = length texts /\
  length (tokens out) = length texts /\
  length (token_starts out) = length texts /\
  length (token_ends out) = length texts /\
  forall i text,
    texts !! i = Some text ->
    let encoded := tokenizer_encode (tokenizer self) text in
    token_ids out !! i = Some (enc_ids encoded) /\
    tokens out !! i = Some (enc_tokens encoded) /\
    exists starts ends,
      token_starts out !! i = Some starts /\
      token_ends out !! i = Some ends /\
      zip starts ends = enc_offsets encoded.
Proof.
  unfold _encode. rewrite fold_encode_text. simpl.
  rewrite !length_fmap. repeat split.
  - rewrite list_lookup_fmap, H. done.
  - rewrite list_lookup_fmap, H. done.
  - eexists _, _. rewrite !list_lookup_fmap, H. simpl.
    split; [done|]. split; [done|]. apply zip_fst_snd.
Qed.

End Encode.

(** C9.  Reading [vocab_size] on any encoder instance yields [None]: the
    tokenizer's vocabulary size is evaluated and dropped, never returned. *)
Theorem vocab_size_is_None (self : HuggingFaceEncoder) :
  vocab_size self = PyNone /\
  forall n, vocab_size self <> PyInt n.
Proof. split; [reflexivity|]. intros n H. discriminate H. Qed.

End HuggingFace.


(** ** [huggingface_interface]: the weight importer *)

Module WeightImporter.

(** *** [str.replace]

    [replace_from fro to skip s] scans [s] from the left; [skip] counts the
    characters of an occurrence of [fro] still to be passed over. *)
Fixpoint replace_from (fro to : string) (skip : nat) (s : string) : string :=
  match s with
  | EmptyString => EmptyString
  | String c rest =>
      match skip with
      | S k => replace_from fro to k rest
      | O =>
          if String.prefix fro s
          then String.append to (replace_from fro to (String.length fro - 1) rest)
          else String c (replace_from fro to 0 rest)
      end
  end.

(** With an empty pattern Python inserts [to] before every character and
    at the end. *)
Fixpoint interleave (to s : string) : string :=
  match s with
  | EmptyString => to
  | String c rest => String.append to (String c (interleave to rest))
  end.

(** [s.replace(fro, to)] *)
Definition str_replace (s fro to : string) : string :=
  match fro with
  | EmptyString => interleave to s
  | String _ _ => replace_from fro to 0 s
  end.

Example str_replace_all_occurrences :
  str_replace "bert/layer_0/bert/kernel:0" "bert/" "model/" =
    "model/layer_0/model/kernel:0"%string.
Proof. reflexivity. Qed.

Example str_replace_no_overlap : str_replace "aaa" "aa" "b" = "ba"%string.
Proof. reflexivity. Qed.

Example str_replace_not_regex : str_replace "a.c abc" "a.c" "x" = "x abc"%string.
Proof. reflexivity. Qed.

Example str_replace_empty_pattern :
  str_replace "ab" EmptyString "-" = "-a-b-"%string.
Proof. reflexivity. Qed.

(** The rewrite rules applied in list order (lines 30-32). *)
Definition rewrite_name (weights_replacement : list (string * string))
    (name : string) : string :=
  fold_left (fun output_name rule => str_replace output_name (fst rule) (snd rule))
    weights_replacement name.

Example rewrite_name_in_order :
  rewrite_name [("a", "b"); ("b", "c")]%string "aab" = "ccc"%string /\
  rewrite_name [("b", "c"); ("a", "b")]%string "aab" = "bbc"%string.
Proof. split; reflexivity. Qed.

Lemma prefix_append (p rest : string) : String.prefix p (String.append p rest) = true.
Proof.
  induction p as [|c p IH]; simpl; [by destruct rest|].
  destruct (Ascii.ascii_dec c c); [exact IH|done].
Qed.

Lemma replace_from_skip (fro to p rest : string) :
  replace_from fro to (String.length p) (String.append p rest) =
  replace_from fro to 0 rest.
Proof.
  induction p as [|c p IH]; simpl; [|exact IH].
  by destruct rest.
Qed.

(** [str_replace] with a non-empty pattern is the left-to-right replacement
    of every non-overlapping occurrence: nothing to do on the empty string,
    an occurrence at the front is replaced and the scan goes on behind it,
    any other character is kept. *)
Lemma str_replace_equations (fro to : string) :
  fro <> EmptyString ->
  str_replace EmptyString fro to = EmptyString /\
  (forall rest,
      str_replace (String.append fro rest) fro to =
      String.append to (str_replace rest fro to)) /\
  (forall c rest,
      String.prefix fro (String c rest) = false ->
      str_replace (String c rest) fro to = String c (str_replace rest fro to)).
Proof.
  intros Hne. destruct fro as [|a fro]; [done|]. unfold str_replace.
  split; [done|]. split.
  - intros rest.
    change (String.append (String a fro) rest) with (String a (String.append fro rest)).
    cbn [replace_from].
    change (String a (String.append fro rest)) with (String.append (String a fro) rest).
    rewrite prefix_append.
    replace (String.length (String a fro) - 1) with (String.length fro)
      by (simpl; lia).
    by rewrite replace_from_skip.
  - intros c rest Hp. cbn [replace_from]. by rewrite Hp.
Qed.

(** Replacement of every occurrence, as the specification words it: the
    string is read from the left; where the from-substring stands,
    character for character, the to-substring is written and reading goes
    on behind the occurrence; any other character is copied. *)
Inductive replaces_all (fro to : string) : string -> string -> Prop :=
| replaces_all_end :
    replaces_all fro to EmptyString EmptyString
| replaces_all_occurrence rest r :
    replaces_all fro to rest r ->
    replaces_all fro to (String.append fro rest) (String.append to r)
| replaces_all_char c rest r :
    String.prefix fro (String c rest) = false ->
    replaces_all fro to rest r ->
    replaces_all fro to (String c rest) (String c r).

Lemma prefix_split (p s : string) :
  String.prefix p s = true -> exists rest, s = String.append p rest.
Proof.
  revert s. induction p as [|a p IH]; intros s H.
  - by exists s.
  - destruct s as [|b s]; simpl in H; [done|].
    destruct (Ascii.ascii_dec a b) as [<-|]; [|done].
    destruct (IH s H) as [rest ->]. by exists rest.
Qed.

Lemma append_length (a b : string) :
  String.length (String.append a b) = String.length a + String.length b.
Proof. induction a as [|x a IH]; simpl; [done|]. by rewrite IH. Qed.

Lemma str_replace_replaces_all (fro to s : string) :
  fro <> EmptyString -> replaces_all fro to s (str_replace s fro to).
Proof.
  intros Hne. destruct (str_replace_equations fro to Hne) as (E1 & E2 & E3).
  remember (String.length s) as n eqn:Hn.
  revert s Hn. induction (lt_wf n) as [n _ IH]. intros s ->.
  destruct s as [|c s].
  - rewrite E1. constructor.
  - destruct (String.prefix fro (String c s)) eqn:Hp.
    + destruct (prefix_split _ _ Hp) as [rest Hrest]. rewrite Hrest, E2.
      constructor. apply (IH (String.length rest)); [|done].
      rewrite Hrest, append_length.
      destruct fro as [|a fro]; [done|]. simpl. lia.
    + rewrite (E3 c s Hp). constructor; [done|].
      apply (IH (String.length s)); [simpl; lia|done].
Qed.

Lemma replaces_all_str_replace (fro to s r : string) :
  fro <> EmptyString -> replaces_all fro to s r -> r = str_replace s fro to.
Proof.
  intros Hne. destruct (str_replace_equations fro to Hne) as (E1 & E2 & E3).
  induction 1 as [|rest r _ IH|c rest r Hp _ IH].
  - by rewrite E1.
  - by rewrite E2, IH.
  - by rewrite (E3 c rest Hp), IH.
Qed.

(** Whether [fro] occurs somewhere in [s]. *)
Fixpoint occurs (fro s : string) : bool :=
  String.prefix fro s ||
  match s with
  | EmptyString => false
  | String _ rest => occurs fro rest
  end.

Lemma str_replace_no_occurrence (s fro to : string) :
  fro <> EmptyString -> occurs fro s = false -> str_replace s fro to = s.
Proof.
  intros Hne. destruct fro as [|a fro]; [done|]. unfold str_replace. clear Hne.
  induction s as [|c s IH]; intros Ho; [done|].
  cbn [occurs] in Ho. apply orb_false_iff in Ho as [Hp Ho].
  cbn [replace_from]. rewrite Hp. by rewrite (IH Ho).
Qed.

(** X16.  A weight name in which no rule's from-substring occurs is kept
    unchanged by the rewriting, whatever the replacement strings. *)
Theorem rewrite_name_unmatched (weights_replacement : list (string * string))
    (name : string) :
  (forall rule, In rule weights_replacement ->
     fst rule <> EmptyString /\ occurs (fst rule) name = false) ->
  rewrite_name weights_replacement name = name.
Proof.
  unfold rewrite_name.
  induction weights_replacement as [|[fro to] rules IH]; intros H; simpl; [done|].
  destruct (H (fro, to) ltac:(by left)) as [Hne Ho]. simpl in *.
  rewrite (str_replace_no_occurrence name fro to Hne Ho).
  apply IH. intros rule Hr. apply H. by right.
Qed.

Lemma rewrite_name_unmatched_witness :
  rewrite_name [("bert/", "model/"); (":0", "!")]%string "dense/kernel" =
    "dense/kernel"%string.
Proof.
  apply (rewrite_name_unmatched [("bert/", "model/"); (":0", "!")]%string
           "dense/kernel").
  intros rule [<-|[<-|[]]]; split; (discriminate || reflexivity).
Defined.

(** Replacing a one-character pattern by a one-character string maps the
    characters one by one. *)
Fixpoint map_chars (f : Ascii.ascii -> Ascii.ascii) (s : string) : string :=
  match s with
  | EmptyString => EmptyString
  | String c rest => String (f c) (map_chars f rest)
  end.

Lemma prefix_char (a c : Ascii.ascii) (rest : string) :
  String.prefix (String a EmptyString) (String c rest) =
  if Ascii.ascii_dec a c then true else false.
Proof. simpl. destruct (Ascii.ascii_dec a c); [by destruct rest|done]. Qed.

Lemma str_replace_char (s : string) (a b : Ascii.ascii) :
  str_replace s (String a EmptyString) (String b EmptyString) =
  map_chars (fun c => if Ascii.ascii_dec a c then b else c) s.
Proof.
  unfold str_replace. induction s as [|c s IH]; [done|].
  cbn [replace_from map_chars]. rewrite prefix_char.
  destruct (Ascii.ascii_dec a c); simpl; by rewrite IH.
Qed.

(** *** The weight archive *)

Section Importer.
(** The numeric arrays stored in the archive. *)
Context {Array : Type}.

(** An HDF5 object: a dataset or a group of named members, each with its
    attributes. *)
Inductive h5_object : Type :=
| H5Dataset (attrs : gmap string (list string)) (data : Array)
| H5Group (attrs : gmap string (list string)) (members : gmap string h5_object).

(** [tensorflow...hdf5_format.load_attributes_from_hdf5_group] and
    [np.asarray] on an archive member, both from outside this repository. *)
Variable load_attributes_from_hdf5_group : h5_object -> string -> list string.
Variable np_asarray_h5 : h5_object -> Array.

(** [o.attrs] *)
Definition h5_attrs (o : h5_object) : gmap string (list string) :=
  match o with
  | H5Dataset attrs _ => attrs
  | H5Group attrs _ => attrs
  end.

(** [name in o] *)
Definition h5_contains (o : h5_object) (name : string) : bool :=
  match o with
  | H5Dataset _ _ => false
  | H5Group _ members => bool_decide (is_Some (members !! name))
  end.

(** [o[name]] *)
Definition h5_getitem (o : h5_object) (name : string) : result h5_object :=
  match o with
  | H5Dataset _ _ =>
      Raise (ValueError "Field names only allowed for compound types")
  | H5Group _ members =>
      match members !! name with
      | Some member => Ok member
      | None => Raise (KeyError name)
      end
  end.

(** The inner loop (lines 29-33) over the weight names of a layer group. *)
Fixpoint load_weight_names (weights_replacement : list (string * string))
    (g : h5_object) (names : list string) (weight_lookup : gmap string Array) :
    result (gmap string Array) :=
  match names with
  | [] => Ok weight_lookup
  | name :: rest =>
      member ← h5_getitem g name;
      load_weight_names weights_replacement g rest
        (<[rewrite_name weights_replacement name := np_asarray_h5 member]>
           weight_lookup)
  end.

(** The outer loop (lines 27-33) over the layer names. *)
Fixpoint load_layers (weights_replacement : list (string * string))
    (f : h5_object) (layer_names : list string)
    (weight_lookup : gmap string Array) : result (gmap string Array) :=
  match layer_names with
  | [] => Ok weight_lookup
  | name :: rest =>
      g ← h5_getitem f name;
      weight_lookup' ←
        load_weight_names weights_replacement g
          (load_attributes_from_hdf5_group g "weight_names") weight_lookup;
      load_layers weights_replacement f rest weight_lookup'
  end.

(** Lines 24-34 on the group [f] that holds the layers. *)
Definition load_group (weights_replacement : list (string * string))
    (f : h5_object) : result (gmap string Array) :=
  load_layers weights_replacement f
    (load_attributes_from_hdf5_group f "layer_names") ∅.

(** [load_weights_from_hdf5_group_by_name] on the opened file [file]. *)
Definition load_weights_from_hdf5_group_by_name (file : h5_object)
    (weights_replacement : list (string * string)) :
    result (gmap string Array) :=
  f ← (if negb (bool_decide (is_Some (h5_attrs file !! "layer_names")))
          && h5_contains file "model_weights"
       then h5_getitem file "model_weights"
       else Ok file);
  load_group weights_replacement f.

(** The weight names of the archive, layer by layer, as stored. *)
Definition layer_weight_names (f : h5_object) (layer_name : string) : list string :=
  match h5_getitem f layer_name with
  | Ok g => load_attributes_from_hdf5_group g "weight_names"
  | Raise _ => []
  end.

Definition source_weight_names (f : h5_object) : list string :=
  concat (layer_weight_names f <$> load_attributes_from_hdf5_group f "layer_names").

(** An archive is complete when every listed layer is a member and every
    listed weight is a member of its layer. *)
Definition complete (f : h5_object) : Prop :=
  forall layer_name,
    In layer_name (load_attributes_from_hdf5_group f "layer_names") ->
    exists g,
      h5_getitem f layer_name = Ok g /\
      forall name,
        In name (load_attributes_from_hdf5_group g "weight_names") ->
        returns (h5_getitem g name).

Lemma load_weight_names_dom rules g names acc lookup :
  load_weight_names rules g names acc = Ok lookup ->
  dom lookup = dom acc ∪ list_to_set (rewrite_name rules <$> names).
Proof.
  revert acc. induction names as [|name names IH]; intros acc H; simpl in H.
  - injection H as <-. set_solver.
  - destruct (h5_getitem g name) as [member|e]; simpl in H; [|done].
    apply IH in H. rewrite H, dom_insert_L, fmap_cons. set_solver.
Qed.

Lemma load_layers_dom rules f layer_names acc lookup :
  load_layers rules f layer_names acc = Ok lookup ->
  dom lookup =
    dom acc ∪
    list_to_set (rewrite_name rules <$> concat (layer_weight_names f <$> layer_names)).
Proof.
  revert acc. induction layer_names as [|ln lns IH]; intros acc H; simpl in H.
  - injection H as <-. set_solver.
  - rewrite fmap_cons. simpl. unfold layer_weight_names at 1.
    destruct (h5_getitem f ln) as [g|e]; simpl in H; [|done].
    destruct (load_weight_names _ _ _ _) as [acc'|e] eqn:Hw; simpl in H; [|done].
    apply load_weight_names_dom in Hw. apply IH in H.
    rewrite H, Hw, fmap_app, list_to_set_app_L. set_solver.
Qed.

Lemma load_weight_names_returns rules g names acc :
  (forall name, In name names -> returns (h5_getitem g name)) ->
  returns (load_weight_names rules g names acc).
Proof.
  revert acc. induction names as [|name names IH]; intros acc H; simpl.
  - by eexists.
  - destruct (H name ltac:(by left)) as [member ->]. simpl.
    apply IH. intros n Hn. apply H. by right.
Qed.

Lemma load_layers_returns rules f layer_names acc :
  (forall ln, In ln layer_names ->
     exists g, h5_getitem f ln = Ok g /\
       forall name, In name (load_attributes_from_hdf5_group g "weight_names") ->
                    returns (h5_getitem g name)) ->
  returns (load_layers rules f layer_names acc).
Proof.
  revert acc. induction layer_names as [|ln lns IH]; intros acc H; simpl.
  - by eexists.
  - destruct (H ln ltac:(by left)) as (g & -> & Hg). simpl.
    destruct (load_weight_names_returns rules g _ acc Hg) as [acc' ->]. simpl.
    apply IH. intros n Hn. apply H. by right.
Qed.

(** C8.  The importer reads the layers from the file itself when the
    file carries the [layer_names] attribute (flat layout) and from its
    [model_weights] member when it does not (nested layout); on a complete
    archive it returns; the keys of the mapping it returns are exactly the
    stored weight names, each rewritten by the rules in list order; and a
    rule rewrites a name by replacing every occurrence of its
    from-substring, matched character for character, by its
    to-substring. *)
Theorem load_weights_keys_and_layouts
    (file : h5_object) (weights_replacement : list (string * string)) :
  (is_Some (h5_attrs file !! "layer_names") ->
   load_weights_from_hdf5_group_by_name file weights_replacement =
     load_group weights_replacement file) /\
  (forall g,
      h5_attrs file !! "layer_names" = None ->
      h5_getitem file "model_weights" = Ok g ->
      load_weights_from_hdf5_group_by_name file weights_replacement =
        load_group weights_replacement g) /\
  (forall f, complete f -> returns (load_group weights_replacement f)) /\
  (forall f weight_lookup,
      load_group weights_replacement f = Ok weight_lookup ->
      dom weight_lookup =
        list_to_set (rewrite_name weights_replacement <$> source_weight_names f)) /\
  (forall name,
      rewrite_name [] name = name /\
      forall fro to rest,
        rewrite_name ((fro, to) :: rest) name =
        rewrite_name rest (str_replace name fro to)) /\
  (forall fro to name r,
      fro <> EmptyString ->
      (replaces_all fro to name r <-> r = str_replace name fro to)).
Proof.
  split; [|split; [|split; [|split; [|split]]]].
  - intros Hflat. unfold load_weights_from_hdf5_group_by_name.
    by rewrite (bool_decide_eq_true_2 _ Hflat).
  - intros g Hnone Hg. unfold load_weights_from_hdf5_group_by_name.
    rewrite Hnone.
    rewrite bool_decide_eq_false_2 by (intros [? ?]; done).
    assert (h5_contains file "model_weights" = true) as ->.
    { destruct file as [|attrs members]; simpl in *; [done|].
      destruct (members !! "model_weights"%string) eqn:Hm; [|done].
      apply bool_decide_eq_true_2. by eexists. }
    simpl. by rewrite Hg.
  - intros f Hc. by apply load_layers_returns.
  - intros f lookup H. apply load_layers_dom in H.
    rewrite H, dom_empty_L. unfold source_weight_names. set_solver.
  - intros name. split; done.
  - intros fro to name r Hne. split.
    + by apply replaces_all_str_replace.
    + intros ->. by apply str_replace_replaces_all.
Qed.

(** *** The mapping as a sequence of stores *)

(** The (rewritten name, array) pairs of a layer and of the archive, in the
    order the loops visit them. *)
Definition layer_entries (weights_replacement : list (string * string))
    (g : h5_object) (names : list string) : list (string * Array) :=
  flat_map
    (fun name =>
       match h5_getitem g name with
       | Ok member => [(rewrite_name weights_replacement name, np_asarray_h5 member)]
       | Raise _ => []
       end)
    names.

Definition archive_entries (weights_replacement : list (string * string))
    (f : h5_object) (layer_names : list string) : list (string * Array) :=
  flat_map
    (fun layer_name =>
       match h5_getitem f layer_name with
       | Ok g =>
           layer_entries weights_replacement g
             (load_attributes_from_hdf5_group g "weight_names")
       | Raise _ => []
       end)
    layer_names.

(** [weight_lookup[key] = value] *)
Definition store (weight_lookup : gmap string Array) (entry : string * Array) :
    gmap string Array :=
  <[fst entry := snd entry]> weight_lookup.

Lemma load_weight_names_stores rules g names acc lookup :
  load_weight_names rules g names acc = Ok lookup ->
  lookup = fold_left store (layer_entries rules g names) acc.
Proof.
  revert acc. induction names as [|name names IH]; intros acc H; simpl in H.
  - by injection H as <-.
  - unfold layer_entries. simpl.
    destruct (h5_getitem g name) as [member|e]; simpl in H; [|done].
    simpl. by apply IH.
Qed.

Lemma load_layers_stores rules f layer_names acc lookup :
  load_layers rules f layer_names acc = Ok lookup ->
  lookup = fold_left store (archive_entries rules f layer_names) acc.
Proof.
  revert acc. induction layer_names as [|ln lns IH]; intros acc H; simpl in H.
  - by injection H as <-.
  - unfold archive_entries. simpl.
    destruct (h5_getitem f ln) as [g|e]; simpl in H; [|done].
    destruct (load_weight_names _ _ _ _) as [acc'|e] eqn:Hw; simpl in H; [|done].
    apply load_weight_names_stores in Hw. apply IH in H.
    rewrite fold_left_app, <- Hw. exact H.
Qed.

Lemma fold_store_lookup_other (entries : list (string * Array))
    (m : gmap string Array) (k : string) :
  (forall entry, In entry entries -> fst entry <> k) ->
  fold_left store entries m !! k = m !! k.
Proof.
  revert m. induction entries as [|[k' v'] entries IH]; intros m H; simpl; [done|].
  rewrite IH by (intros entry He; apply H; by right).
  unfold store. simpl. apply lookup_insert_ne.
  apply (H (k', v')). by left.
Qed.

Lemma fold_store_lookup_In (entries : list (string * Array))
    (m : gmap string Array) (k : string) (v : Array) :
  fold_left store entries m !! k = Some v ->
  m !! k = Some v \/ In (k, v) entries.
Proof.
  revert m. induction entries as [|[k' v'] entries IH]; intros m H; simpl in *;
    [by left|].
  apply IH in H as [H|H]; [|by right; right].
  unfold store in H. simpl in H.
  destruct (decide (k' = k)) as [->|Hne].
  - rewrite lookup_insert_eq in H. injection H as ->. right. by left.
  - rewrite lookup_insert_ne in H by done. by left.
Qed.

(** X17.  Many-to-one renaming: when several stored weights are rewritten
    to the same name, the mapping holds the array of the one stored last;
    in general an entry is found under its rewritten name as soon as no
    later entry has that name. *)
Theorem load_group_last_store_wins
    (weights_replacement : list (string * string)) (f : h5_object)
    (weight_lookup : gmap string Array)
    (before after : list (string * Array)) (key : string) (value : Array) :
  load_group weights_replacement f = Ok weight_lookup ->
  archive_entries weights_replacement f
    (load_attributes_from_hdf5_group f "layer_names") =
    before ++ (key, value) :: after ->
  (forall entry, In entry after -> fst entry <> key) ->
  weight_lookup !! key = Some value.
Proof.
  intros Hload Hentries Hlast. apply load_layers_stores in Hload.
  rewrite Hload, Hentries, fold_left_app. simpl.
  rewrite (fold_store_lookup_other after _ key Hlast).
  unfold store. simpl. apply lookup_insert_eq.
Qed.

(** X18.  Every array of the returned mapping is [np.asarray] of a member
    of a listed layer, filed under the rewritten name of that member. *)
Theorem load_group_values_from_archive
    (weights_replacement : list (string * string)) (f : h5_object)
    (weight_lookup : gmap string Array) (key : string) (value : Array) :
  load_group weights_replacement f = Ok weight_lookup ->
  weight_lookup !! key = Some value ->
  exists layer_name g name member,
    In layer_name (load_attributes_from_hdf5_group f "layer_names") /\
    h5_getitem f layer_name = Ok g /\
    In name (load_attributes_from_hdf5_group g "weight_names") /\
    h5_getitem g name = Ok member /\
    key = rewrite_name weights_replacement name /\
    value = np_asarray_h5 member.
Proof.
  intros Hload Hkey. apply load_layers_stores in Hload. rewrite Hload in Hkey.
  apply fold_store_lookup_In in Hkey as [Hkey|Hin]; [by rewrite lookup_empty in Hkey|].
  unfold archive_entries in Hin. apply in_flat_map in Hin as (ln & Hln & Hin).
  destruct (h5_getitem f ln) as [g|e] eqn:Hg; [|done].
  unfold layer_entries in Hin. apply in_flat_map in Hin as (name & Hname & Hin).
  destruct (h5_getitem g name) as [member|e] eqn:Hm; [|done].
  destruct Hin as [[= <- <-]|[]].
  by exists ln, g, name, member.
Qed.

Lemma size_list_to_set_le (l : list string) :
  size (list_to_set l : gset string) <= length l.
Proof.
  induction l as [|x l IH].
  { rewrite list_to_set_nil, size_empty. done. }
  rewrite list_to_set_cons. cbn [length].
  destruct (decide (x ∈ (list_to_set l : gset string))) as [Hin|Hin].
  - replace ({[x]} ∪ list_to_set l : gset string) with (list_to_set l : gset string)
      by set_solver. lia.
  - rewrite size_union by set_solver. rewrite size_singleton. lia.
Qed.

(** X19.  The mapping never has more entries than the archive has stored
    weight names, and has exactly as many when the rewritten names are
    pairwise distinct. *)
Theorem load_group_size
    (weights_replacement : list (string * string)) (f : h5_object)
    (weight_lookup : gmap string Array) :
  load_group weights_replacement f = Ok weight_lookup ->
  size weight_lookup <= length (source_weight_names f) /\
  (NoDup (rewrite_name weights_replacement <$> source_weight_names f) ->
   size weight_lookup = length (source_weight_names f)).
Proof.
  intros Hload. apply load_layers_dom in Hload.
  rewrite dom_empty_L, (left_id_L ∅ (∪)) in Hload.
  fold (source_weight_names f) in Hload.
  rewrite <- size_dom, Hload. split.
  - etrans; [apply size_list_to_set_le|]. by rewrite length_fmap.
  - intros Hnd. rewrite size_list_to_set by done. by rewrite length_fmap.
Qed.

Lemma load_weight_names_returns_inv rules g names acc :
  returns (load_weight_names rules g names acc) ->
  forall name, In name names -> returns (h5_getitem g name).
Proof.
  revert acc. induction names as [|n names IH]; intros acc H name Hin; [done|].
  simpl in H. destruct (h5_getitem g n) as [member|e] eqn:Hn; simpl in H.
  - destruct Hin as [<-|Hin]; [rewrite Hn; by eexists|]. by eapply IH.
  - by destruct H.
Qed.

Lemma load_layers_returns_inv rules f layer_names acc :
  returns (load_layers rules f layer_names acc) ->
  forall ln, In ln layer_names ->
    exists g, h5_getitem f ln = Ok g /\
      forall name, In name (load_attributes_from_hdf5_group g "weight_names") ->
                   returns (h5_getitem g name).
Proof.
  revert acc. induction layer_names as [|l lns IH]; intros acc H ln Hin; [done|].
  simpl in H. destruct (h5_getitem f l) as [g|e] eqn:Hg; simpl in H;
    [|by destruct H].
  destruct (load_weight_names _ _ _ _) as [acc'|e] eqn:Hw; simpl in H;
    [|by destruct H].
  destruct Hin as [<-|Hin]; [|by eapply IH].
  exists g. split; [done|].
  apply (load_weight_names_returns_inv rules g _ acc). rewrite Hw. by eexists.
Qed.

(** X20.  The import of a group returns exactly when the archive is
    complete: a listed layer or weight that is not a member makes it
    raise instead of being skipped. *)
Theorem load_group_returns_iff_complete
    (weights_replacement : list (string * string)) (f : h5_object) :
  returns (load_group weights_replacement f) <-> complete f.
Proof.
  split.
  - intros H ln Hln. by eapply load_layers_returns_inv.
  - intros Hc. by apply load_layers_returns.
Qed.

End Importer.

(** *** A small archive in both layouts *)

Definition attrs_or_empty (o : h5_object (Array := Z)) (name : string) : list string :=
  default [] (h5_attrs o !! name).

Definition dataset_value (o : h5_object (Array := Z)) : Z :=
  match o with
  | H5Dataset _ data => data
  | H5Group _ _ => 0%Z
  end.

Definition dense_layer : h5_object (Array := Z) :=
  H5Group {[ "weight_names"%string := ["bert/dense/kernel:0"; "bert/dense/bias:0"]%string ]}
    {[ "bert/dense/kernel:0"%string := H5Dataset ∅ 11%Z;
       "bert/dense/bias:0"%string := H5Dataset ∅ 22%Z ]}.

Definition flat_archive : h5_object (Array := Z) :=
  H5Group {[ "layer_names"%string := ["dense"%string] ]}
    {[ "dense"%string := dense_layer ]}.

Definition nested_archive : h5_object (Array := Z) :=
  H5Group ∅ {[ "model_weights"%string := flat_archive ]}.

Definition sample_rules : list (string * string) :=
  [("bert/", "model/featurizer/"); (":0", EmptyString)]%string.

Example load_flat_archive :
  load_weights_from_hdf5_group_by_name attrs_or_empty dataset_value
    flat_archive sample_rules =
  Ok (<["model/featurizer/dense/kernel"%string := 11%Z]>
        (<["model/featurizer/dense/bias"%string := 22%Z]> ∅)).
Proof. vm_compute. reflexivity. Qed.

Example load_nested_archive :
  load_weights_from_hdf5_group_by_name attrs_or_empty dataset_value
    nested_archive sample_rules =
  load_weights_from_hdf5_group_by_name attrs_or_empty dataset_value
    flat_archive sample_rules.
Proof. vm_compute. reflexivity. Qed.

Lemma flat_archive_complete : complete attrs_or_empty flat_archive.
Proof.
  intros ln [<-|[]]. exists dense_layer. split; [reflexivity|].
  intros name [<-|[<-|[]]]; eexists; reflexivity.
Qed.

Lemma load_weights_keys_and_layouts_witness :
  load_weights_from_hdf5_group_by_name attrs_or_empty dataset_value
    flat_archive sample_rules =
    load_group attrs_or_empty dataset_value sample_rules flat_archive /\
  load_weights_from_hdf5_group_by_name attrs_or_empty dataset_value
    nested_archive sample_rules =
    load_group attrs_or_empty dataset_value sample_rules flat_archive /\
  returns (load_group attrs_or_empty dataset_value sample_rules flat_archive) /\
  (forall weight_lookup,
      load_group attrs_or_empty dataset_value sample_rules flat_archive =
        Ok weight_lookup ->
      dom weight_lookup =
        list_to_set (rewrite_name sample_rules <$>
                       source_weight_names attrs_or_empty flat_archive)) /\
  (forall r,
      replaces_all "bert/" "model/" "bert/x/bert/y" r <->
      r = "model/x/model/y"%string).
Proof.
  destruct (load_weights_keys_and_layouts attrs_or_empty dataset_value
              flat_archive sample_rules) as (Hflat & _ & Hret & Hdom & _ & Hrep).
  destruct (load_weights_keys_and_layouts attrs_or_empty dataset_value
              nested_archive sample_rules) as (_ & Hnested & _).
  split; [|split; [|split; [|split]]].
  - apply Hflat. by eexists.
  - apply Hnested; reflexivity.
  - apply Hret. exact flat_archive_complete.
  - intros weight_lookup. apply Hdom.
  - intros r. apply (Hrep "bert/" "model/" "bert/x/bert/y" r)%string. discriminate.
Defined.

(** *** The further facts on concrete archives *)

(** A layer with two weights whose names the rule [("/", "_")] rewrites to
    the same name. *)
Definition colliding_archive : h5_object (Array := Z) :=
  H5Group {[ "layer_names"%string := ["dense"%string] ]}
    {[ "dense"%string :=
         H5Group {[ "weight_names"%string := ["a/x"; "a_x"]%string ]}
           {[ "a/x"%string := H5Dataset ∅ 11%Z;
              "a_x"%string := H5Dataset ∅ 22%Z ]} ]}.

Lemma load_group_last_store_wins_witness :
  exists weight_lookup,
    load_group attrs_or_empty dataset_value [("/", "_")]%string colliding_archive =
      Ok weight_lookup /\
    weight_lookup !! "a_x"%string = Some 22%Z.
Proof.
  eexists. split; [reflexivity|].
  apply (load_group_last_store_wins attrs_or_empty dataset_value
           [("/", "_")]%string colliding_archive _
           [("a_x"%string, 11%Z)] [] "a_x"%string 22%Z).
  - reflexivity.
  - reflexivity.
  - intros entry [].
Defined.

Lemma load_group_values_from_archive_witness :
  exists layer_name g name member,
    In layer_name (attrs_or_empty flat_archive "layer_names") /\
    h5_getitem flat_archive layer_name = Ok g /\
    In name (attrs_or_empty g "weight_names") /\
    h5_getitem g name = Ok member /\
    "model/featurizer/dense/bias"%string = rewrite_name sample_rules name /\
    22%Z = dataset_value member.
Proof.
  apply (load_group_values_from_archive attrs_or_empty dataset_value
           sample_rules flat_archive _ "model/featurizer/dense/bias"%string 22%Z
           eq_refl).
  vm_compute. reflexivity.
Defined.

Lemma load_group_size_witness :
  exists weight_lookup,
    load_group attrs_or_empty dataset_value sample_rules flat_archive =
      Ok weight_lookup /\
    size weight_lookup <= length (source_weight_names attrs_or_empty flat_archive) /\
    (NoDup (rewrite_name sample_rules <$>
              source_weight_names attrs_or_empty flat_archive) ->
     size weight_lookup = length (source_weight_names attrs_or_empty flat_archive)).
Proof.
  eexists. split; [reflexivity|].
  apply (load_group_size attrs_or_empty dataset_value sample_rules flat_archive).
  reflexivity.
Defined.

End WeightImporter.

(** ** [huggingface_interface]: the files of a [HuggingFaceModel] *)

Module HuggingFaceModel.
Import WeightImporter.

Local Open Scope string_scope.

Definition slash : Ascii.ascii := "/"%char.

(** [weights_file] (lines 162-164):
    ["{}_{}.jl".format(pretrained_weights.replace("/", "_"), name)]. *)
Definition weights_file (pretrained_weights featurizer_name : string) : string :=
  String.append (str_replace pretrained_weights "/" "_")
    (String.append "_" (String.append featurizer_name ".jl")).

(** [posixpath.join] of a path with one more component, and of a list of
    components. *)
Fixpoint ends_with_slash (s : string) : bool :=
  match s with
  | EmptyString => false
  | String c EmptyString => if Ascii.ascii_dec c slash then true else false
  | String _ rest => ends_with_slash rest
  end.

Definition starts_with_slash (s : string) : bool :=
  match s with
  | EmptyString => false
  | String c _ => if Ascii.ascii_dec c slash then true else false
  end.

Definition join_component (path b : string) : string :=
  if starts_with_slash b then b
  else
    match path with
    | EmptyString => b
    | String _ _ =>
        if ends_with_slash path then String.append path b
        else String.append path (String slash b)
    end.

Definition os_path_join (a : string) (p : list string) : string :=
  fold_left join_component p a.

Section Paths.
(** [finetune.util.download.FINETUNE_BASE_FOLDER] *)
Variable FINETUNE_BASE_FOLDER : string.

(** [raw_weights_path] and [weights_path] (lines 165-170). *)
Definition raw_weights_path (pretrained_weights featurizer_name : string) : string :=
  os_path_join FINETUNE_BASE_FOLDER
    ["model"; "huggingface";
     String.append "raw_" (weights_file pretrained_weights featurizer_name)].

Definition weights_path (pretrained_weights featurizer_name : string) : string :=
  os_path_join FINETUNE_BASE_FOLDER
    ["model"; "huggingface"; weights_file pretrained_weights featurizer_name].

(** The folder both files are meant for. *)
Definition huggingface_folder : string :=
  os_path_join FINETUNE_BASE_FOLDER ["model"; "huggingface"].

End Paths.

(** [settings["base_model_path"]] (line 176). *)
Definition base_model_path (pretrained_weights featurizer_name : string) : string :=
  os_path_join "huggingface" [weights_file pretrained_weights featurizer_name].

Fixpoint has_char (c : Ascii.ascii) (s : string) : bool :=
  match s with
  | EmptyString => false
  | String c' rest => (if Ascii.ascii_dec c c' then true else false) || has_char c rest
  end.

Example weights_file_bert :
  weights_file "google/bert_uncased" "TFBertMainLayer" =
    "google_bert_uncased_TFBertMainLayer.jl" /\
  base_model_path "google/bert_uncased" "TFBertMainLayer" =
    "huggingface/google_bert_uncased_TFBertMainLayer.jl" /\
  raw_weights_path "/home/u/.finetune" "google/bert_uncased" "TFBertMainLayer" =
    "/home/u/.finetune/model/huggingface/raw_google_bert_uncased_TFBertMainLayer.jl".
Proof. repeat split. Qed.

Definition underscore_for_slash (c : Ascii.ascii) : Ascii.ascii :=
  if Ascii.ascii_dec slash c then "_"%char else c.

Lemma replace_slash_map_chars (s : string) :
  str_replace s "/" "_" = map_chars underscore_for_slash s.
Proof. apply (str_replace_char s slash "_"%char). Qed.

Lemma has_char_append (c : Ascii.ascii) (a b : string) :
  has_char c (String.append a b) = has_char c a || has_char c b.
Proof.
  induction a as [|x a IH]; simpl; [done|]. rewrite IH. by rewrite orb_assoc.
Qed.

Lemma has_char_replace_slash (s : string) :
  has_char slash (str_replace s "/" "_") = false.
Proof.
  rewrite replace_slash_map_chars.
  induction s as [|c s IH]; [done|]. cbn [map_chars has_char].
  rewrite IH, orb_false_r.
  unfold underscore_for_slash.
  destruct (Ascii.ascii_dec slash c) as [<-|Hc]; [by vm_compute|].
  destruct (Ascii.ascii_dec slash c) as [He|_]; [by destruct Hc|done].
Qed.

(** X21.  The file name built from a checkpoint identifier holds no path
    separator (given the featurizer class name holds none): the slashes of
    the identifier are all replaced. *)
Theorem weights_file_no_separator (pretrained_weights featurizer_name : string) :
  has_char slash featurizer_name = false ->
  has_char slash (weights_file pretrained_weights featurizer_name) = false.
Proof.
  intros Hn. unfold weights_file.
  rewrite !has_char_append, has_char_replace_slash, Hn. done.
Qed.

Lemma weights_file_no_separator_witness :
  has_char slash (weights_file "google/bert/uncased" "TFBertMainLayer") = false.
Proof.
  apply (weights_file_no_separator "google/bert/uncased" "TFBertMainLayer").
  reflexivity.
Defined.

Lemma map_chars_underscore_idempotent (s : string) :
  map_chars underscore_for_slash (map_chars underscore_for_slash s) =
  map_chars underscore_for_slash s.
Proof.
  induction s as [|c s IH]; [done|]. cbn [map_chars]. rewrite IH. f_equal.
  unfold underscore_for_slash.
  destruct (Ascii.ascii_dec slash c) as [<-|Hc]; [by vm_compute|].
  destruct (Ascii.ascii_dec slash c) as [He|_]; [by destruct Hc|done].
Qed.

Lemma has_char_map_chars_ne (s : string) :
  has_char slash s = true -> map_chars underscore_for_slash s <> s.
Proof.
  induction s as [|c s IH]; [done|]. cbn [map_chars has_char]. intros H Heq.
  injection Heq as Hc Hs.
  unfold underscore_for_slash in Hc.
  destruct (Ascii.ascii_dec slash c) as [<-|Hne]; [by vm_compute in Hc|].
  simpl in H. by apply IH.
Qed.

(** X22.  File names are not unique per checkpoint: an identifier that
    holds a slash and the different identifier with underscores in place
    of the slashes are given the same weights file. *)
Theorem weights_file_collision (pretrained_weights featurizer_name : string) :
  has_char slash pretrained_weights = true ->
  str_replace pretrained_weights "/" "_" <> pretrained_weights /\
  weights_file (str_replace pretrained_weights "/" "_") featurizer_name =
    weights_file pretrained_weights featurizer_name.
Proof.
  intros Hs. split.
  - rewrite replace_slash_map_chars. by apply has_char_map_chars_ne.
  - unfold weights_file. f_equal.
    rewrite !replace_slash_map_chars. apply map_chars_underscore_idempotent.
Qed.

Lemma weights_file_collision_witness :
  str_replace "org/bert" "/" "_" <> "org/bert" /\
  weights_file (str_replace "org/bert" "/" "_") "TFBertMainLayer" =
    weights_file "org/bert" "TFBertMainLayer".
Proof.
  apply (weights_file_collision "org/bert" "TFBertMainLayer"). reflexivity.
Defined.

(** *** Where the two files are *)

Lemma ends_with_slash_append (a b : string) :
  b <> EmptyString ->
  ends_with_slash (String.append a b) = ends_with_slash b.
Proof.
  intros Hb. induction a as [|c a IH]; [done|].
  change (String.append (String c a) b) with (String c (String.append a b)).
  cbn [ends_with_slash].
  destruct (String.append a b) as [|c' r] eqn:E.
  - destruct a; [simpl in E; done|done].
  - exact IH.
Qed.

Lemma join_component_relative (path b : string) :
  starts_with_slash b = false ->
  path <> EmptyString ->
  ends_with_slash path = false ->
  join_component path b = String.append path (String slash b).
Proof.
  intros Hb Hp He. unfold join_component. rewrite Hb, He.
  by destruct path.
Qed.

Lemma huggingface_folder_shape (base : string) :
  huggingface_folder base <> EmptyString /\
  ends_with_slash (huggingface_folder base) = false.
Proof.
  unfold huggingface_folder, os_path_join. simpl.
  set (m := join_component base "model").
  unfold join_component. cbn [starts_with_slash].
  destruct (Ascii.ascii_dec "h" slash) as [H|_]; [done|].
  destruct m as [|c m]; [done|].
  destruct (ends_with_slash (String c m)).
  - split; [done|]. by rewrite ends_with_slash_append.
  - split; [done|].
    by rewrite (ends_with_slash_append (String c m) (String slash "huggingface")).
Qed.

Lemma starts_with_slash_has_char (s : string) :
  starts_with_slash s = true -> has_char slash s = true.
Proof.
  destruct s as [|c s]; simpl; [done|].
  destruct (Ascii.ascii_dec c slash) as [->|Hc]; [|done].
  intros _. by destruct (Ascii.ascii_dec slash slash).
Qed.

Lemma weights_file_relative (pretrained_weights featurizer_name : string) :
  starts_with_slash (weights_file pretrained_weights featurizer_name) = false.
Proof.
  unfold weights_file.
  destruct (str_replace pretrained_weights "/" "_") as [|c r] eqn:E; [done|].
  simpl. destruct (Ascii.ascii_dec c slash) as [->|Hc]; [|done].
  pose proof (has_char_replace_slash pretrained_weights) as H.
  rewrite E in H. simpl in H.
  by destruct (Ascii.ascii_dec slash slash).
Qed.

Lemma append_inv_head (a b c : string) :
  String.append a b = String.append a c -> b = c.
Proof.
  induction a as [|x a IH]; simpl; [done|]. intros H. injection H as H. by apply IH.
Qed.

Lemma string_length_append (a b : string) :
  String.length (String.append a b) = String.length a + String.length b.
Proof. induction a as [|x a IH]; simpl; [done|]. by rewrite IH. Qed.

(** X23.  Whatever the base folder and the names, the downloaded file and
    the translated file both lie directly in the [model/huggingface]
    folder, under [raw_] + file name and the file name, and they are
    different files: [translate_base_model_format] never writes over the
    file it reads. *)
Theorem raw_and_translated_paths
    (FINETUNE_BASE_FOLDER pretrained_weights featurizer_name : string) :
  let folder := huggingface_folder FINETUNE_BASE_FOLDER in
  let file := weights_file pretrained_weights featurizer_name in
  weights_path FINETUNE_BASE_FOLDER pretrained_weights featurizer_name =
    String.append folder (String slash file) /\
  raw_weights_path FINETUNE_BASE_FOLDER pretrained_weights featurizer_name =
    String.append folder (String slash (String.append "raw_" file)) /\
  raw_weights_path FINETUNE_BASE_FOLDER pretrained_weights featurizer_name <>
    weights_path FINETUNE_BASE_FOLDER pretrained_weights featurizer_name.
Proof.
  intros folder file.
  destruct (huggingface_folder_shape FINETUNE_BASE_FOLDER) as [Hne Hend].
  assert (Hw : weights_path FINETUNE_BASE_FOLDER pretrained_weights featurizer_name =
               String.append folder (String slash file)).
  { change (weights_path FINETUNE_BASE_FOLDER pretrained_weights featurizer_name)
      with (join_component folder file).
    apply join_component_relative; [apply weights_file_relative|done|done]. }
  assert (Hr : raw_weights_path FINETUNE_BASE_FOLDER pretrained_weights featurizer_name =
               String.append folder (String slash (String.append "raw_" file))).
  { change (raw_weights_path FINETUNE_BASE_FOLDER pretrained_weights featurizer_name)
      with (join_component folder (String.append "raw_" file)).
    apply join_component_relative; [done|done|done]. }
  split; [exact Hw|]. split; [exact Hr|].
  rewrite Hw, Hr. intros Heq. apply append_inv_head in Heq.
  injection Heq as Heq.
  apply (f_equal String.length) in Heq.
  rewrite string_length_append in Heq. simpl in Heq. lia.
Qed.

End HuggingFaceModel.
